(** * HotStuff: crypto cache, carousel leader rotation and the twins simulator

    A shallow embedding of

    - [crypto/cache.go]: the LRU cache in front of a [consensus.CryptoBase],
    - [leaderrotation/carousel.go]: reputation-based leader election,
    - [twins/network.go], [twins/scenario.go]: the drop decision of the
      simulated network and the commit check run after a scenario,

    together with the properties stated about them. *)

From Stdlib Require Import ZArith Lia.
From Stdlib.Strings Require Import Byte.
From stdpp Require Import base decidable countable option list sorting gmap sets fin_sets fin_maps pretty.

#[local] Open Scope Z_scope.

(** ** Go values shared by the modules *)

(** [[]byte] and the Go [string]s built from them are byte sequences. *)
Abbreviation bytes := (list byte).

#[global] Instance byte_eq_dec : EqDecision byte := Byte.byte_eq_dec.
#[global] Instance byte_countable : Countable byte :=
  inj_countable Byte.to_N Byte.of_N Byte.of_to_N.

(** [hotstuff.ID] is a [uint32]; [consensus.View] is a [uint64]. *)
Abbreviation ID := N.

(** A computation that may panic: [None] is a Go run-time panic. *)
Module GoM.

Definition M (S A : Type) : Type := S -> option (A * S).

Definition ret {S A} (a : A) : M S A := fun s => Some (a, s).
Definition bind {S A B} (m : M S A) (k : A -> M S B) : M S B :=
  fun s => match m s with
           | Some (a, s') => k a s'
           | None => None
           end.
Definition get {S} : M S S := fun s => Some (s, s).
Definition put {S} (s : S) : M S unit := fun _ => Some (tt, s).
Definition modify {S} (f : S -> S) : M S unit := fun s => Some (tt, f s).
Definition panic {S A} : M S A := fun _ => None.

End GoM.

#[global] Instance GoM_ret {S} : MRet (GoM.M S) := @GoM.ret S.
#[global] Instance GoM_bind {S} : MBind (GoM.M S) := fun A B k m => GoM.bind m k.

(** ** [crypto/cache.go] *)
Module Cache.

(** *** [container/list] as used by the cache

    [accessOrder] is a doubly linked list of keys, most recently used at the
    front.  [entries] maps a key to the list element that carries it, so an
    element is identified here by its key. *)

Fixpoint list_Remove (key : bytes) (l : list bytes) : list bytes :=
  match l with
  | [] => []
  | x :: l' => if decide (x = key) then l' else x :: list_Remove key l'
  end.

Definition list_MoveToFront (key : bytes) (l : list bytes) : list bytes :=
  key :: list_Remove key l.

Definition list_PushFront (key : bytes) (l : list bytes) : list bytes := key :: l.

(** [l.Remove(l.Back())]: the removed value and the rest; [None] when the list
    is empty ([Back] is [nil] and [Remove] dereferences it). *)
Definition list_RemoveBack (l : list bytes) : option (bytes * list bytes) :=
  match last l with
  | Some key => Some (key, removelast l)
  | None => None
  end.

(** *** [crypto/sha256] and slices

    [sha256_New()] is a running hash, modelled by the bytes written so far;
    the digest function itself is a parameter of the development. *)
Definition hasher := bytes.
Definition sha256_New : hasher := [].
Definition hasher_Write (h : hasher) (p : bytes) : hasher := h ++ p.

(** [append(s, xs...)] where [s = arr[:n]] is a slice over the whole backing
    array [arr]: the bytes are written in place when they fit in the capacity
    that is left, otherwise a fresh array is allocated and [arr] is untouched.
    Returns the resulting slice and the contents of [arr] afterwards. *)
Definition slice_append (arr : bytes) (n : nat) (xs : bytes) : bytes * bytes :=
  if decide (n + length xs <= length arr)%nat
  then (take n arr ++ xs, take n arr ++ xs ++ drop (n + length xs) arr)
  else (take n arr ++ xs, arr).

(** [consensus.Hash] is [[32]byte]; a [var hash consensus.Hash] is zeroed. *)
Definition zero_Hash : bytes := replicate 32 x00.

(** What the cache asks of the primitive it wraps (a [consensus.CryptoBase])
    and of a [consensus.QuorumSignature].  [Sign] may draw randomness, so it
    threads the primitive's state; [None] is a non-nil [err]. *)
Class CryptoBase (Sig Impl : Type) := {
  ToBytes : Sig -> bytes;
  impl_Sign : Impl -> bytes -> option Sig * Impl;
  impl_Verify : Sig -> bytes -> bool;
  impl_BatchVerify : Sig -> gmap N bytes -> bool;
}.

(** Calls that reach the primitive and what they returned, recorded to state
    which operations delegate. *)
Inductive call (Sig : Type) :=
| CallSign (message : bytes) (result : option Sig)
| CallVerify (signature : Sig) (message : bytes) (result : bool)
| CallBatchVerify (signature : Sig) (batch : gmap N bytes) (result : bool).
Arguments CallSign {Sig}.
Arguments CallVerify {Sig}.
Arguments CallBatchVerify {Sig}.

Record cache (Sig Impl : Type) := mkCache {
  impl : Impl;
  capacity : Z;
  entries : gset bytes;
  accessOrder : list bytes;
  calls : list (call Sig);
}.
Arguments mkCache {Sig Impl}.
Arguments impl {Sig Impl}.
Arguments capacity {Sig Impl}.
Arguments entries {Sig Impl}.
Arguments accessOrder {Sig Impl}.
Arguments calls {Sig Impl}.

Section Cache.
Context {Sig Impl : Type} `{CB : CryptoBase Sig Impl}.
Variable sha256_Sum256 : bytes -> bytes.

#[local] Abbreviation cache := (cache Sig Impl).
#[local] Abbreviation M := (GoM.M cache).

Definition NewCache (i : Impl) (cap : Z) : cache :=
  mkCache i cap ∅ [] [].

Definition set_order (f : list bytes -> list bytes) (c : cache) : cache :=
  mkCache (impl c) (capacity c) (entries c) (f (accessOrder c)) (calls c).
Definition set_entries (f : gset bytes -> gset bytes) (c : cache) : cache :=
  mkCache (impl c) (capacity c) (f (entries c)) (accessOrder c) (calls c).

Definition evict : M unit :=
  c ← GoM.get;
  if decide (Z.of_nat (size (entries c)) < capacity c) then mret tt
  else
    match list_RemoveBack (accessOrder c) with
    | None => GoM.panic
    | Some (key, rest) =>
        GoM.modify (set_order (fun _ => rest));;
        GoM.modify (set_entries (fun e => e ∖ {[key]}))
    end.

Definition insert (key : bytes) : M unit :=
  c ← GoM.get;
  if decide (key ∈ entries c) then
    GoM.modify (set_order (list_MoveToFront key))
  else
    evict;;
    GoM.modify (set_order (list_PushFront key));;
    GoM.modify (set_entries (fun e => {[key]} ∪ e)).

Definition check (key : bytes) : M bool :=
  c ← GoM.get;
  if decide (key ∈ entries c) then
    GoM.modify (set_order (list_MoveToFront key));;
    mret true
  else mret false.

Definition log (ev : call Sig) (c : cache) : cache :=
  mkCache (impl c) (capacity c) (entries c) (accessOrder c) (calls c ++ [ev]).

Definition call_Sign (message : bytes) : M (option Sig) :=
  c ← GoM.get;
  let '(r, i) := impl_Sign (impl c) message in
  GoM.put (log (CallSign message r)
             (mkCache i (capacity c) (entries c) (accessOrder c) (calls c)));;
  mret r.

Definition call_Verify (signature : Sig) (message : bytes) : M bool :=
  let r := impl_Verify signature message in
  GoM.modify (log (CallVerify signature message r));;
  mret r.

Definition call_BatchVerify (signature : Sig) (batch : gmap N bytes) : M bool :=
  let r := impl_BatchVerify signature batch in
  GoM.modify (log (CallBatchVerify signature batch r));;
  mret r.

(** The key of [Sign] and [Verify]: a [strings.Builder] receives the digest of
    the message, then the signature bytes. *)
Definition Verify_key (signature : Sig) (message : bytes) : bytes :=
  let hash := sha256_Sum256 message in
  hash ++ ToBytes signature.

Definition Sign (message : bytes) : M (option Sig) :=
  r ← call_Sign message;
  match r with
  | None => mret None
  | Some sig =>
      insert (Verify_key sig message);;
      mret (Some sig)
  end.

Definition Verify (signature : Sig) (message : bytes) : M bool :=
  let key := Verify_key signature message in
  hit ← check key;
  if hit : bool then mret true
  else
    ok ← call_Verify signature message;
    if ok : bool then insert key;; mret true
    else mret false.

(** [hasher.Sum(b)] appends the digest of what was written to [b]. *)
Definition hasher_Sum (h : hasher) (arr : bytes) (n : nat) : bytes * bytes :=
  slice_append arr n (sha256_Sum256 h).

(** The key of [BatchVerify].  The ids are sorted and the messages written to
    the hasher in that order; [hasher.Sum(hash[:])] is then handed the full
    slice of the 32-byte array [hash] and its result is dropped, [hash] is read
    afterwards. *)
Definition BatchVerify_key (signature : Sig) (batch : gmap N bytes) : bytes :=
  let ids := merge_sort N.le (map fst (map_to_list batch)) in
  let hash := zero_Hash in
  let hasher :=
    foldl (fun h id => hasher_Write h (default [] (batch !! id))) sha256_New ids in
  let '(_, hash) := hasher_Sum hasher hash (length hash) in
  hash ++ ToBytes signature.

Definition BatchVerify (signature : Sig) (batch : gmap N bytes) : M bool :=
  let key := BatchVerify_key signature batch in
  hit ← check key;
  if hit : bool then mret true
  else
    ok ← call_BatchVerify signature batch;
    if ok : bool then insert key;; mret true
    else mret false.

(** Sequences of operations on a cache. *)
Inductive op :=
| OpSign (message : bytes)
| OpVerify (signature : Sig) (message : bytes)
| OpBatchVerify (signature : Sig) (batch : gmap N bytes).

Definition step (o : op) : M unit :=
  match o with
  | OpSign m => Sign m;; mret tt
  | OpVerify s m => Verify s m;; mret tt
  | OpBatchVerify s b => BatchVerify s b;; mret tt
  end.

Fixpoint run (ops : list op) : M unit :=
  match ops with
  | [] => mret tt
  | o :: ops' => step o;; run ops'
  end.

Fixpoint inserts (keys : list bytes) : M unit :=
  match keys with
  | [] => mret tt
  | k :: keys' => insert k;; inserts keys'
  end.

(** The [n]-th most recent of the keys inserted in the order [keys], counted
    from one: the first most recent is the last one inserted. *)
Definition most_recent (n : nat) (keys : list bytes) : option bytes :=
  match n with
  | O => None
  | S j => reverse keys !! j
  end.

End Cache.
End Cache.

(** ** Blocks and certificates of package [consensus] *)
Module Consensus.

(** A [consensus.QuorumSignature] as the carousel reads it: [Participants]
    lists the signers in the order [ForEach] visits them. *)
Record QuorumSignature := mkQuorumSignature {
  Participants : list N;
}.

(** [Signature] is [None] for the [nil] signature. *)
Record QuorumCert := mkQuorumCert {
  Signature : option QuorumSignature;
  qc_View : Z;
  BlockHash : bytes;
}.

Record Block := mkBlock {
  Hash : bytes;
  Parent : bytes;
  Proposer : N;
  Cmd : bytes;
  cert : QuorumCert;
  View : Z;
}.

#[global] Instance QuorumSignature_eq_dec : EqDecision QuorumSignature.
Proof. solve_decision. Defined.
#[global] Instance QuorumCert_eq_dec : EqDecision QuorumCert.
Proof. solve_decision. Defined.
#[global] Instance Block_eq_dec : EqDecision Block.
Proof. solve_decision. Defined.

End Consensus.

(** ** [leaderrotation/carousel.go] *)
Module Carousel.
Import Consensus.

(** [consensus.View] arithmetic is on [uint64]. *)
Definition View_sub (a b : Z) : Z := (a - b) mod 2 ^ 64.

(** What [GetLeader] reads through [c.mods]: the committed block and chain
    length of the consensus module, the size of the configuration, and the
    block chain, whose [Get] is a lookup by hash in the blocks that are
    visible. *)
Record Modules := mkModules {
  CommittedBlock : Block;
  ChainLength : Z;
  Configuration_Len : Z;
  BlockChain : gmap bytes Block;
}.

(** [math/rand]: [Int] steps the generator and returns a non-negative [int]. *)
Class Rand (R : Type) := {
  rand_Int : R -> Z * R;
  rand_Int_range : ∀ s, 0 <= (rand_Int s).1 < 2 ^ 63;
}.

Record carousel (R : Type) := mkCarousel {
  mods : Modules;
  rnd : R;
}.
Arguments mkCarousel {R}.
Arguments mods {R}.
Arguments rnd {R}.

(** Modelled from the spec: [hotstuff.NumFaulty] is not among the sources; the
    number of tolerated faults is f = floor((N - 1) / 3). *)
Definition NumFaulty (n : Z) : Z := (n - 1) / 3.

(** Modelled from the spec: [hotstuff.QuorumSize] is not among the sources; a
    quorum is q = N - f. *)
Definition QuorumSize (n : Z) : Z := n - NumFaulty n.

Section Carousel.
Context {R : Type} `{RS : Rand R}.
(** [consensus.GetGenesis()] and [chooseRoundRobin] live outside this file. *)
Variable GetGenesis : Block.
Variable chooseRoundRobin : Z -> Z -> N.

(** The loop over the ancestors of the commit head.  [n] counts the rounds
    that are left ([f - i]); [block] is [None] once [Get] failed. *)
Fixpoint collect (chain : gmap bytes Block) (n : nat) (block : option Block)
    (lastAuthors : gset N) : gset N :=
  match n, block with
  | S n', Some b =>
      if decide (b = GetGenesis) then lastAuthors
      else collect chain n' (chain !! Parent b) ({[Proposer b]} ∪ lastAuthors)
  | _, _ => lastAuthors
  end.

Definition lastAuthors_of (m : Modules) : gset N :=
  let f := NumFaulty (Configuration_Len m) in
  collect (BlockChain m) (Z.to_nat f) (Some (CommittedBlock m)) ∅.

Definition candidates_of (m : Modules) (sig : QuorumSignature) : list N :=
  filter (fun i => i ∉ lastAuthors_of m) (Participants sig).

Definition GetLeader (c : carousel R) (round : Z) : option (N * carousel R) :=
  let m := mods c in
  let commitHead := CommittedBlock m in
  match Signature (cert commitHead) with
  | None => Some (chooseRoundRobin round (Configuration_Len m), c)
  | Some sig =>
      if decide (View commitHead ≠ View_sub round (ChainLength m)) then
        Some (chooseRoundRobin round (Configuration_Len m), c)
      else
        let f := NumFaulty (Configuration_Len m) in
        (* make([]hotstuff.ID, 0, Len()-f) panics on a negative capacity *)
        if decide (Configuration_Len m - f < 0) then None
        else
          let candidates := candidates_of m sig in
          let '(r, rnd') := rand_Int (rnd c) in
          let n := Z.of_nat (length candidates) in
          (* r % 0 panics; so does an index out of range *)
          if decide (n = 0) then None
          else
            let idx := Z.rem r n in
            if decide (0 <= idx) then
              match candidates !! Z.to_nat idx with
              | Some leader => Some (leader, mkCarousel m rnd')
              | None => None
              end
            else None
  end.

(** The blocks the loop visits, first the commit head. *)
Fixpoint visited (chain : gmap bytes Block) (n : nat) (block : option Block)
    : list Block :=
  match n, block with
  | S n', Some b =>
      if decide (b = GetGenesis) then []
      else b :: visited chain n' (chain !! Parent b)
  | _, _ => []
  end.

End Carousel.
End Carousel.

(** ** [twins/network.go] and [twins/scenario.go] *)
Module Twins.
Import Consensus.

(** Go's [int] is taken to be 64 bits wide; [int(v)] of a [uint64] and [+]
    on [int] wrap around. *)
Definition wrap_int (z : Z) : Z := (z + 2 ^ 63) mod 2 ^ 64 - 2 ^ 63.

Record NodeID := mkNodeID {
  ReplicaID : N;
  NetworkID : N;
}.

(** A node, with the view of its synchronizer
    ([node.mods.Synchronizer().View()]) as a field. *)
Record node := mkNode {
  id : NodeID;
  Synchronizer_View : Z;
  executedBlocks : list Block;
  effectiveView : Z;
}.

(** The dynamic type of a message, as [reflect.TypeOf] reports it. *)
Inductive MsgType :=
| ProposeMsg | VoteMsg | HashMsg | NewViewMsg | TimeoutMsg | OtherMsg.

#[global] Instance MsgType_eq_dec : EqDecision MsgType.
Proof. solve_decision. Defined.

(** A [NodeSet] is a set of network ids. *)
Record View := mkView {
  Leader : N;
  Partitions : list (gset N);
}.

Record Network := mkNetwork {
  nodes : gmap N node;
  replicas : gmap N (list node);
  views : list View;
  dropTypes : list MsgType;
}.

(** The loop over the partitions of a view. *)
Fixpoint some_partition_has_both (partitions : list (gset N)) (sender receiver : N)
    : bool :=
  match partitions with
  | [] => false
  | partition :: rest =>
      if decide (sender ∈ partition ∧ receiver ∈ partition) then true
      else some_partition_has_both rest sender receiver
  end.

(** [None] is the panic for an unknown sender. *)
Definition shouldDrop (n : Network) (sender receiver : N) (message : MsgType)
    : option bool :=
  match nodes n !! sender with
  | None => None
  | Some node =>
      let i :=
        if decide (effectiveView node > Synchronizer_View node)
        then wrap_int (-1 + wrap_int (effectiveView node))
        else wrap_int (-1 + wrap_int (Synchronizer_View node)) in
      if decide (i < 0) then Some false
      else if decide (i >= Z.of_nat (length (views n))) then Some true
      else
        match views n !! Z.to_nat i with
        | None => None
        | Some v =>
            if some_partition_has_both (Partitions v) sender receiver then Some false
            else Some (bool_decide (message ∈ dropTypes n))
        end
  end.

(** [timeoutManager.advance] on the manager's counters and its node; the
    result also says whether a [TimeoutEvent] for the current view was
    queued. *)
Record timeoutManager := mkTimeoutManager {
  countdown : Z;
  timeout : Z;
}.

Definition advance (tm : timeoutManager) (nd : node)
    : timeoutManager * node * option Z :=
  let countdown' := wrap_int (countdown tm - 1) in
  if decide (countdown' = 0) then
    let view := Synchronizer_View nd in
    let nd' :=
      if decide (effectiveView nd <= view)
      then mkNode (id nd) (Synchronizer_View nd) (executedBlocks nd)
             ((view + 1) mod 2 ^ 64)
      else nd in
    (mkTimeoutManager (timeout tm) (timeout tm), nd', Some view)
  else (mkTimeoutManager countdown' (timeout tm), nd, None).

(** The effective view of a node: the larger of its synchronizer's view and
    the view its timeouts have moved it to. *)
Definition effective_view (nd : node) : Z :=
  Z.max (effectiveView nd) (Synchronizer_View nd).

(** One pass of [checkCommits] over the replicas for the index [i]: the
    counts per hash and the [noCommits] flag. *)
Definition count_commit (i : nat) (acc : gmap bytes nat * bool)
    (replica : list node) : gmap bytes nat * bool :=
  match replica with
  | [r] =>
      match executedBlocks r !! i with
      | None => acc
      | Some block =>
          (<[Hash block := S (default O (acc.1 !! Hash block))]> (acc.1), false)
      end
  | _ => acc
  end.

Definition count_commits (n : Network) (i : nat) : gmap bytes nat * bool :=
  foldl (count_commit i) (∅, true) (snd <$> map_to_list (replicas n)).

(** [checkCommits]; the unbounded [for] loop runs on [fuel]. *)
Fixpoint checkCommits_from (fuel : nat) (n : Network) (i : nat)
    : option (bool * nat) :=
  match fuel with
  | O => None
  | S fuel' =>
      let '(commitCount, noCommits) := count_commits n i in
      if noCommits then Some (true, i)
      else if decide (size commitCount ≠ 1%nat) then Some (false, i)
      else checkCommits_from fuel' n (S i)
  end.

Definition checkCommits (fuel : nat) (n : Network) : option (bool * nat) :=
  checkCommits_from fuel n O.

(** [h] is the hash at position [i] of the executed blocks of a replica that
    has no twin. *)
Definition committed_at (n : Network) (i : nat) (h : bytes) : Prop :=
  ∃ rid r block, replicas n !! rid = Some [r] ∧
                 executedBlocks r !! i = Some block ∧ Hash block = h.

(** The hashes at position [i] form a singleton or the empty set. *)
Definition agree_at (n : Network) (i : nat) : Prop :=
  ∀ h1 h2, committed_at n i h1 -> committed_at n i h2 -> h1 = h2.

(** There are two or more distinct hashes at position [i]. *)
Definition conflict_at (n : Network) (i : nat) : Prop :=
  ∃ h1 h2, committed_at n i h1 ∧ committed_at n i h2 ∧ h1 ≠ h2.

End Twins.

(** ** More of [twins/network.go] and [twins/scenario.go] *)
Module TwinsNet.
Import Consensus Twins.

(** [NewPartitionedNetwork]: no node yet. *)
Definition NewPartitionedNetwork (views : list View) (dropTypes : list MsgType)
    : Network :=
  mkNetwork ∅ ∅ views dropTypes.

(** [GetNodeBuilder] registers a fresh node under its network id and appends
    it to the nodes of its replica id.  [view] is the view of the synchronizer
    the node is later built with. *)
Definition GetNodeBuilder (n : Network) (nid : NodeID) (view : Z) : Network :=
  let nd := mkNode nid view [] 0 in
  mkNetwork
    (<[NetworkID nid := nd]> (nodes n))
    (<[ReplicaID nid := default [] (replicas n !! ReplicaID nid) ++ [nd]]>
       (replicas n))
    (views n) (dropTypes n).

(** The loop of [createTwinsNodes], as far as the network goes. *)
Definition addNodes (n : Network) (ids : list NodeID) (view : Z) : Network :=
  foldl (fun n nid => GetNodeBuilder n nid view) n ids.

(** [configuration.Len]. *)
Definition Len (n : Network) : Z := Z.of_nat (size (replicas n)).

(** A [configuration]: the node it belongs to and the optional
    sub-configuration ([None] for a [nil] [subConfig]). *)
Record configuration := mkConfiguration {
  cfg_node : node;
  subConfig : option (gset N);
}.

Record pendingMessage := mkPendingMessage {
  message : MsgType;
  receiver : N;
}.

(** [configuration.shouldDrop]. *)
Definition cfg_shouldDrop (n : Network) (c : configuration) (to : NodeID)
    (msg : MsgType) : option bool :=
  shouldDrop n (NetworkID (id (cfg_node c))) (NetworkID to) msg.

(** [sendMessage], on the queue of pending messages; [None] is a panic. *)
Definition sendMessage (n : Network) (c : configuration) (rid : N)
    (msg : MsgType) (pending : list pendingMessage)
    : option (list pendingMessage) :=
  match replicas n !! rid with
  | None => None
  | Some nds =>
      foldl (fun acc nd =>
               match acc with
               | None => None
               | Some p =>
                   match cfg_shouldDrop n c (id nd) msg with
                   | None => None
                   | Some true => Some p
                   | Some false =>
                       Some (p ++ [mkPendingMessage msg (NetworkID (id nd))])
                   end
               end)
        (Some pending) nds
  end.

(** [broadcastMessage]; the replicas are visited in the order of
    [map_to_list]. *)
Definition broadcastMessage (n : Network) (c : configuration) (msg : MsgType)
    (pending : list pendingMessage) : option (list pendingMessage) :=
  foldl (fun acc '(rid, _) =>
           match acc with
           | None => None
           | Some p =>
               if decide (rid = ReplicaID (id (cfg_node c))) then Some p
               else
                 match subConfig c with
                 | None => sendMessage n c rid msg p
                 | Some sub =>
                     if decide (rid ∈ sub) then sendMessage n c rid msg p
                     else Some p
                 end
           end)
    (Some pending) (map_to_list (replicas n)).

(** [configuration.SubConfig]: the same node, restricted to [ids]. *)
Definition SubConfig (c : configuration) (ids : list N) : configuration :=
  mkConfiguration (cfg_node c) (Some (list_to_set ids)).

(** [timeoutManager.viewChange]. *)
Definition viewChange (tm : timeoutManager) : timeoutManager :=
  mkTimeoutManager (timeout tm) (timeout tm).

(** [k] ticks in a row with no view change in between: the manager, the node
    and the views of the timeout events queued, oldest first. *)
Fixpoint advance_n (k : nat) (tm : timeoutManager) (nd : node)
    : timeoutManager * node * list Z :=
  match k with
  | O => (tm, nd, [])
  | S k' =>
      let '(tm1, nd1, ev) := advance tm nd in
      let '(tm2, nd2, evs) := advance_n k' tm1 nd1 in
      (tm2, nd2, option_list ev ++ evs)
  end.

(** [strconv.FormatUint(x, 10)]. *)
Definition FormatUint (x : Z) : bytes :=
  String.list_byte_of_string (pretty (Z.to_N x)).

(** [commandGenerator.next] on the counter [nextCmd] (a [uint64]). *)
Definition next (nextCmd : Z) : bytes * Z :=
  (FormatUint nextCmd, (nextCmd + 1) mod 2 ^ 64).

(** [k] calls of [next] in a row. *)
Fixpoint next_n (k : nat) (nextCmd : Z) : list bytes * Z :=
  match k with
  | O => ([], nextCmd)
  | S k' =>
      let '(cmd, c1) := next nextCmd in
      let '(cmds, c2) := next_n k' c1 in
      (cmd :: cmds, c2)
  end.

End TwinsNet.

(** ** A small primitive to run the cache on

    A signature is valid for a message when it is the byte [S] followed by
    the message; a batch is valid when its only signer is replica 1 and the
    signature is valid for that signer's message.  The digest pads or cuts
    its input to 32 bytes. *)
Module Toy.
Import Cache.

Definition sign (m : bytes) : bytes := x53 :: m.

#[global] Instance primitive : CryptoBase bytes unit := {|
  ToBytes := fun s => s;
  impl_Sign := fun st m => (Some (sign m), st);
  impl_Verify := fun s m => bool_decide (s = sign m);
  impl_BatchVerify := fun s b => bool_decide (map_to_list b = [(1%N, drop 1 s)]);
|}.

Definition digest (m : bytes) : bytes := take 32 (m ++ zero_Hash).

Definition a : bytes := [x61].
Definition b : bytes := [x62].
Definition c : bytes := [x63].

(** The state a computation leaves behind (the state it started from when it
    panics). *)
Definition after {A} (m : GoM.M (cache bytes unit) A) (st : cache bytes unit)
  : cache bytes unit :=
  match m st with
  | Some (_, st') => st'
  | None => st
  end.

(** The same for a cache over any primitive. *)
Definition after_any {Sig Impl A} (m : GoM.M (cache Sig Impl) A)
    (st : cache Sig Impl) : cache Sig Impl :=
  match m st with
  | Some (_, st') => st'
  | None => st
  end.

(** A primitive whose signatures name their signer while [ToBytes] leaves the
    signer out: only replica 1 holds a key, and [Sign] is sound. *)
Definition anonymous : CryptoBase (N * bytes) unit := {|
  ToBytes := fun s => s.2;
  impl_Sign := fun st m => (Some (1%N, sign m), st);
  impl_Verify := fun s m => bool_decide (s.1 = 1%N ∧ s.2 = sign m);
  impl_BatchVerify := fun s b => false;
|}.

(** A primitive whose [Sign] returns what its own [Verify] rejects. *)
Definition careless : CryptoBase bytes unit := {|
  ToBytes := fun s => s;
  impl_Sign := fun st m => (Some m, st);
  impl_Verify := fun s m => bool_decide (s = sign m);
  impl_BatchVerify := fun s b => false;
|}.

(** Replica 1 signs [a], the cache then serves a batch check and a check of a
    signature it has not seen. *)
Definition history : list (@op bytes) :=
  [OpSign a; OpBatchVerify (sign a) {[1%N := a]}; OpVerify (sign b) b].

(** A generator that counts: the [k]-th call of [Int] returns [k]. *)
Lemma counter_range (s : Z) : 0 <= (s mod 2 ^ 63, s + 1).1 < 2 ^ 63.
Proof. cbn [fst]. apply Z.mod_pos_bound. lia. Qed.

#[global] Instance counter : Carousel.Rand Z := {|
  Carousel.rand_Int := fun s => (s mod 2 ^ 63, s + 1);
  Carousel.rand_Int_range := counter_range;
|}.

Definition round_robin (view n : Z) : N := Z.to_N (view mod n + 1).

Definition genesis : Consensus.Block :=
  Consensus.mkBlock [x00] [] 0 [] (Consensus.mkQuorumCert None 0 [x00]) 0.

(** Blocks of views 1 and 2, both proposed by replica 1, certified by the
    replicas in [signers]. *)
Definition block1 (signers : list N) : Consensus.Block :=
  Consensus.mkBlock [x01] [x00] 1 a
    (Consensus.mkQuorumCert (Some (Consensus.mkQuorumSignature signers)) 0 [x00]) 1.
Definition block2 (signers : list N) : Consensus.Block :=
  Consensus.mkBlock [x02] [x01] 1 b
    (Consensus.mkQuorumCert (Some (Consensus.mkQuorumSignature signers)) 1 [x01]) 2.

(** A replica of a configuration of [n] whose commit head is [block2]. *)
Definition replica_state (n : Z) (signers : list N) : Carousel.carousel Z :=
  Carousel.mkCarousel
    (Carousel.mkModules (block2 signers) 3 n
       (<[ [x02] := block2 signers ]> (<[ [x01] := block1 signers ]>
          (<[ [x00] := genesis ]> ∅))))
    0.

(** A network of three nodes in view 1, where nodes 1 and 2 share a
    partition, and the same network before view 1 has begun. *)
Definition node_at (nid : N) (view : Z) : Twins.node :=
  Twins.mkNode (Twins.mkNodeID nid nid) view [] 0.

Definition network_at (view : Z) : Twins.Network :=
  Twins.mkNetwork
    (<[1%N := node_at 1 view]> (<[2%N := node_at 2 view]>
       (<[3%N := node_at 3 view]> ∅)))
    (<[1%N := [node_at 1 view]]> (<[2%N := [node_at 2 view]]>
       (<[3%N := [node_at 3 view]]> ∅)))
    [Twins.mkView 1 [{[1%N; 2%N]}; {[3%N]}]]
    [Twins.ProposeMsg; Twins.VoteMsg; Twins.HashMsg].

(** A finished scenario: replica 1 has a twin (nodes 1 and 5), replicas 2
    and 3 have executed one and two blocks of the same chain. *)
Definition finished_node (rid nid : N) (blocks : list Consensus.Block)
    : Twins.node :=
  Twins.mkNode (Twins.mkNodeID rid nid) 3 blocks 0.

Definition finished : Twins.Network :=
  Twins.mkNetwork ∅
    (<[1%N := [finished_node 1 1 [block1 []]; finished_node 1 5 [block2 []]]]>
       (<[2%N := [finished_node 2 2 [block1 []]]]>
          (<[3%N := [finished_node 3 3 [block1 []; block2 []]]]> ∅)))
    [] [].

(** Node 1 of [network_at view] speaking to everybody, and a manager armed
    with a timeout of five ticks. *)
Definition speaker (view : Z) : TwinsNet.configuration :=
  TwinsNet.mkConfiguration (node_at 1 view) None.

Definition manager : Twins.timeoutManager := Twins.mkTimeoutManager 0 5.

End Toy.

(** * Properties *)

(** ** The LRU structure of the cache *)
Module CacheLRU.
Import Cache.

Lemma list_RemoveBack_snoc l x : list_RemoveBack (l ++ [x]) = Some (x, l).
Proof.
  unfold list_RemoveBack. rewrite last_snoc. by rewrite removelast_last.
Qed.

Lemma list_RemoveBack_inv l x r :
  list_RemoveBack l = Some (x, r) -> l = r ++ [x].
Proof.
  destruct l as [|y l _] using rev_ind; [done|].
  rewrite list_RemoveBack_snoc. congruence.
Qed.

Lemma list_RemoveBack_None l : list_RemoveBack l = None -> l = [].
Proof.
  destruct l as [|y l _] using rev_ind; [done|].
  by rewrite list_RemoveBack_snoc.
Qed.

Lemma list_Remove_notin key l : key ∉ l -> list_Remove key l = l.
Proof.
  induction l as [|x l IH]; simpl; [done|].
  rewrite not_elem_of_cons. intros [Hne Hl].
  case_decide; [congruence|]. by rewrite IH.
Qed.

Lemma list_Remove_app_notin key p r :
  key ∉ p -> list_Remove key (p ++ r) = p ++ list_Remove key r.
Proof.
  induction p as [|x p IH]; simpl; [done|].
  rewrite not_elem_of_cons. intros [Hne Hp].
  case_decide; [congruence|]. by rewrite IH.
Qed.

Lemma elem_of_list_Remove key k l :
  NoDup l -> k ∈ list_Remove key l <-> k ∈ l ∧ k ≠ key.
Proof.
  induction l as [|x l IH]; simpl; intros Hnd.
  - set_solver.
  - apply NoDup_cons in Hnd as [Hx Hnd]. case_decide as Hd.
    + subst x. rewrite elem_of_cons. split; [|naive_solver].
      intros Hk. split; [by right|]. intros ->. done.
    + rewrite !elem_of_cons, IH by done. naive_solver.
Qed.

Lemma NoDup_list_Remove key l : NoDup l -> NoDup (list_Remove key l).
Proof.
  induction l as [|x l IH]; simpl; intros Hnd; [done|].
  apply NoDup_cons in Hnd as [Hx Hnd]. case_decide; [done|].
  apply NoDup_cons. split; [|by apply IH].
  rewrite elem_of_list_Remove by done. naive_solver.
Qed.

Lemma length_list_Remove_in key l :
  key ∈ l -> S (length (list_Remove key l)) = length l.
Proof.
  induction l as [|x l IH]; simpl.
  - by intros ?%elem_of_nil.
  - case_decide; [done|]. rewrite elem_of_cons. intros [->|Hin]; [done|].
    simpl. by rewrite IH.
Qed.

Lemma take_list_Remove_take n key l :
  take n (list_Remove key (take (S n) l)) = take n (list_Remove key l).
Proof.
  revert n. induction l as [|x l IH]; intros n; [done|].
  cbn [take list_Remove]. case_decide.
  - by rewrite take_take, Nat.min_id.
  - destruct n as [|n]; [done|]. cbn [take]. by rewrite IH.
Qed.

Lemma take_MoveToFront_take n key l :
  take (S n) (list_MoveToFront key (take (S n) l))
  = take (S n) (list_MoveToFront key l).
Proof.
  unfold list_MoveToFront. cbn [take]. by rewrite take_list_Remove_take.
Qed.

Lemma foldl_MoveToFront_NoDup l keys :
  NoDup keys ->
  foldl (fun l k => list_MoveToFront k l) l keys
  = reverse keys ++ foldl (fun l k => list_Remove k l) l keys.
Proof.
  intros Hnd. revert l.
  induction keys as [|k keys IH] using rev_ind; intros l; [done|].
  apply NoDup_app in Hnd as (Hnd & Hk & _).
  rewrite !foldl_app, reverse_app. cbn [foldl reverse app].
  rewrite IH by done. unfold list_MoveToFront at 1. cbn. f_equal.
  apply list_Remove_app_notin. rewrite elem_of_reverse.
  intros Hin. apply (Hk _ Hin). by left.
Qed.

Section Props.
Context {Sig Impl : Type} `{CB : CryptoBase Sig Impl}.
Implicit Types c : cache Sig Impl.

(** The representation invariant of the Go structure: the list holds every
    key once and [entries] has exactly the keys of the list. *)
Record wf c : Prop := {
  wf_NoDup : NoDup (accessOrder c);
  wf_entries : ∀ k, k ∈ entries c <-> k ∈ accessOrder c;
}.

Definition bounded c : Prop :=
  Z.of_nat (length (accessOrder c)) <= Z.max 0 (capacity c).

(** Fields that [insert], [check] and [evict] leave alone. *)
Definition same_frame c c' : Prop :=
  impl c' = impl c ∧ capacity c' = capacity c ∧ calls c' = calls c.

Lemma wf_size c : wf c -> size (entries c) = length (accessOrder c).
Proof.
  intros [Hnd He].
  assert (entries c = list_to_set (accessOrder c)) as ->.
  { apply set_eq. intros k. rewrite He. by rewrite elem_of_list_to_set. }
  by apply size_list_to_set.
Qed.

Lemma NewCache_wf (i : Impl) cap : wf (NewCache i cap).
Proof. split; simpl; [constructor|]. intros k. set_solver. Qed.

Lemma NewCache_bounded (i : Impl) cap : bounded (NewCache i cap).
Proof. unfold bounded. simpl. lia. Qed.

Lemma insert_unfold c key :
  insert key c =
  if decide (key ∈ entries c) then
    Some (tt, set_order (list_MoveToFront key) c)
  else if decide (Z.of_nat (size (entries c)) < capacity c) then
    Some (tt, set_entries (fun e => {[key]} ∪ e) (set_order (list_PushFront key) c))
  else
    match list_RemoveBack (accessOrder c) with
    | None => None
    | Some (k, rest) =>
        Some (tt, set_entries (fun e => {[key]} ∪ e)
                    (set_order (list_PushFront key)
                       (set_entries (fun e => e ∖ {[k]})
                          (set_order (fun _ => rest) c))))
    end.
Proof.
  unfold insert, evict, mbind, GoM_bind, GoM.bind, GoM.get, GoM.modify, GoM.panic.
  cbn. repeat case_decide; try done.
  destruct (list_RemoveBack (accessOrder c)) as [[k rest]|]; done.
Qed.

Lemma check_unfold c key :
  check key c =
  if decide (key ∈ entries c) then
    Some (true, set_order (list_MoveToFront key) c)
  else Some (false, c).
Proof.
  unfold check, mbind, GoM_bind, GoM.bind, GoM.get, GoM.modify. cbn.
  by case_decide.
Qed.

(** Promotion of a key that is present permutes the list. *)
Lemma MoveToFront_wf c key :
  wf c -> key ∈ entries c -> wf (set_order (list_MoveToFront key) c).
Proof.
  intros [Hnd He] Hin. split; cbn.
  - unfold list_MoveToFront. apply NoDup_cons. split; [|by apply NoDup_list_Remove].
    rewrite elem_of_list_Remove by done. naive_solver.
  - intros k. unfold list_MoveToFront.
    rewrite elem_of_cons, elem_of_list_Remove, He by done.
    apply He in Hin. destruct (decide (k = key)); naive_solver.
Qed.

Lemma MoveToFront_length c key :
  wf c -> key ∈ entries c ->
  length (list_MoveToFront key (accessOrder c)) = length (accessOrder c).
Proof.
  intros [Hnd He] Hin. unfold list_MoveToFront. cbn.
  apply length_list_Remove_in. by apply He.
Qed.

(** What [insert] does to a well-formed cache that has room for one key. *)
Lemma insert_spec c key :
  wf c -> bounded c -> 1 <= capacity c ->
  ∃ c', insert key c = Some (tt, c') ∧ same_frame c c' ∧ wf c' ∧ bounded c' ∧
        accessOrder c' =
          take (Z.to_nat (capacity c)) (list_MoveToFront key (accessOrder c)).
Proof.
  intros Hwf Hb Hcap. pose proof (wf_size c Hwf) as Hsz.
  destruct Hwf as [Hnd He]. unfold bounded in Hb.
  rewrite insert_unfold. case_decide as Hin; [|case_decide as Hlt].
  - eexists. split; [done|]. split; [done|].
    split; [by apply MoveToFront_wf|].
    pose proof (MoveToFront_length c key (Build_wf _ Hnd He) Hin) as Hlen.
    unfold bounded, set_order. cbn [accessOrder capacity].
    split; [lia|]. rewrite take_ge; [done|lia].
  - eexists. split; [done|]. split; [done|]. rewrite Hsz in Hlt.
    assert (key ∉ accessOrder c) as Hnin by (by rewrite <- He).
    split; [|split].
    + split; cbn.
      * apply NoDup_cons. by split.
      * intros k. unfold list_PushFront. rewrite elem_of_cons, <- He. set_solver.
    + unfold bounded, list_PushFront. cbn. lia.
    + cbn. unfold list_MoveToFront, list_PushFront.
      rewrite list_Remove_notin by done. rewrite take_ge; [done|cbn; lia].
  - rewrite Hsz in Hlt.
    assert (key ∉ accessOrder c) as Hnin by (by rewrite <- He).
    destruct (list_RemoveBack (accessOrder c)) as [[k rest]|] eqn:Hback.
    2:{ apply list_RemoveBack_None in Hback. rewrite Hback in Hlt. cbn in Hlt. lia. }
    apply list_RemoveBack_inv in Hback.
    rewrite Hback in Hnd, Hnin, Hb, Hlt. rewrite length_app in Hb, Hlt. cbn in Hb, Hlt.
    apply NoDup_app in Hnd as (Hnd & Hk & _).
    apply not_elem_of_app in Hnin as [Hnin Hne].
    eexists. split; [done|]. split; [done|]. split; [|split].
    + split; cbn.
      * apply NoDup_cons. by split.
      * intros k'. unfold list_PushFront.
        rewrite elem_of_cons, elem_of_union, elem_of_difference, He, Hback.
        rewrite elem_of_app, !elem_of_singleton, list_elem_of_singleton.
        split; [naive_solver|]. intros [->|Hin']; [by left|]. right.
        split; [by left|]. intros ->. apply (Hk _ Hin'). by left.
    + unfold bounded, list_PushFront. cbn. lia.
    + cbn. rewrite Hback. unfold list_MoveToFront, list_PushFront.
      rewrite list_Remove_notin.
      2:{ rewrite not_elem_of_app. split; [done|]. done. }
      replace (Z.to_nat (capacity c)) with (S (length rest)) by lia.
      cbn. by rewrite take_app_length.
Qed.

(** With no room at all ([capacity <= 0]) an insert into the empty cache
    panics: [accessOrder.Back()] is [nil]. *)
Lemma insert_no_capacity c key :
  wf c -> bounded c -> capacity c <= 0 -> insert key c = None.
Proof.
  intros Hwf Hb Hcap. pose proof (wf_size c Hwf) as Hsz.
  unfold bounded in Hb.
  assert (accessOrder c = []) as Hnil by (apply length_zero_iff_nil; lia).
  rewrite insert_unfold. rewrite Hsz, Hnil.
  case_decide as Hin.
  - apply (wf_entries c Hwf) in Hin. rewrite Hnil in Hin. by apply elem_of_nil in Hin.
  - case_decide; [cbn in *; lia|done].
Qed.

Lemma insert_Some c key c' :
  wf c -> bounded c -> insert key c = Some (tt, c') ->
  same_frame c c' ∧ wf c' ∧ bounded c' ∧ key ∈ entries c'.
Proof.
  intros Hwf Hb Hins. destruct (decide (1 <= capacity c)) as [Hcap|Hcap].
  - destruct (insert_spec c key Hwf Hb Hcap) as (c2 & Hins2 & Hfr & Hwf2 & Hb2 & Hord).
    rewrite Hins in Hins2. injection Hins2 as <-.
    split; [done|]. split; [done|]. split; [done|].
    apply (wf_entries _ Hwf2). rewrite Hord.
    replace (Z.to_nat (capacity c)) with (S (Z.to_nat (capacity c - 1))) by lia.
    unfold list_MoveToFront. cbn. by left.
  - rewrite insert_no_capacity in Hins by (done || lia). done.
Qed.

Lemma check_spec c key :
  wf c -> bounded c ->
  ∃ c', check key c = Some (bool_decide (key ∈ entries c), c') ∧
        same_frame c c' ∧ wf c' ∧ bounded c' ∧ entries c' = entries c.
Proof.
  intros Hwf Hb. rewrite check_unfold. case_decide as Hin.
  - rewrite bool_decide_eq_true_2 by done. eexists. split; [done|].
    split; [done|]. split; [by apply MoveToFront_wf|]. split; [|done].
    unfold bounded, set_order in *. cbn [accessOrder capacity].
    by rewrite MoveToFront_length.
  - rewrite bool_decide_eq_false_2 by done. by eexists.
Qed.

Lemma insert_entries c key c' k :
  insert key c = Some (tt, c') -> k ∈ entries c' -> k = key ∨ k ∈ entries c.
Proof.
  rewrite insert_unfold. case_decide as Hin; [|case_decide as Hlt].
  - intros [= <-]. cbn. by right.
  - intros [= <-]. cbn. set_solver.
  - destruct (list_RemoveBack (accessOrder c)) as [[k0 rest]|]; [|done].
    intros [= <-]. cbn. set_solver.
Qed.

End Props.
End CacheLRU.

(** ** The cache in front of the primitive *)
Module CacheOps.
Import Cache CacheLRU.

Ltac go_unfold :=
  unfold mbind, mret, GoM_bind, GoM_ret, GoM.bind, GoM.ret, GoM.get, GoM.put,
    GoM.modify, GoM.panic.

Section Ops.
Context {Sig Impl : Type} `{CB : CryptoBase Sig Impl}.
Variable sha256_Sum256 : bytes -> bytes.
Implicit Types c : cache Sig Impl.

#[local] Abbreviation Sign := (Sign sha256_Sum256).
#[local] Abbreviation Verify := (Verify sha256_Sum256).
#[local] Abbreviation BatchVerify := (BatchVerify sha256_Sum256).
#[local] Abbreviation Verify_key := (Verify_key sha256_Sum256).
#[local] Abbreviation BatchVerify_key := (BatchVerify_key sha256_Sum256).
#[local] Abbreviation run := (run sha256_Sum256).
#[local] Abbreviation step := (step sha256_Sum256).

Lemma Sign_unfold c message :
  Sign message c =
  let r := (impl_Sign (impl c) message).1 in
  let c1 := log (CallSign message r)
              (mkCache (impl_Sign (impl c) message).2 (capacity c) (entries c)
                 (accessOrder c) (calls c)) in
  match r with
  | None => Some (None, c1)
  | Some sig =>
      match insert (Verify_key sig message) c1 with
      | Some (_, c2) => Some (Some sig, c2)
      | None => None
      end
  end.
Proof.
  unfold Cache.Sign, call_Sign. go_unfold.
  destruct (impl_Sign (impl c) message) as [[sig|] i]; cbn; [|done].
  by destruct (insert _ _) as [[[] c2]|].
Qed.

(** The shape shared by [Verify] and [BatchVerify]: look the key up, and
    delegate only on a miss. *)
Definition lookup_or (key : bytes) (ev : bool -> call Sig) (r : bool) c
  : option (bool * cache Sig Impl) :=
  if decide (key ∈ entries c) then
    Some (true, set_order (list_MoveToFront key) c)
  else if r then
    match insert key (log (ev true) c) with
    | Some (_, c2) => Some (true, c2)
    | None => None
    end
  else Some (false, log (ev false) c).

Lemma Verify_unfold c signature message :
  Verify signature message c =
  lookup_or (Verify_key signature message) (CallVerify signature message)
    (impl_Verify signature message) c.
Proof.
  unfold Cache.Verify, call_Verify, lookup_or. go_unfold.
  rewrite check_unfold. case_decide; [done|]. cbn.
  destruct (impl_Verify signature message); [|done].
  by destruct (insert _ _) as [[[] c2]|].
Qed.

Lemma BatchVerify_unfold c signature batch :
  BatchVerify signature batch c =
  lookup_or (BatchVerify_key signature batch) (CallBatchVerify signature batch)
    (impl_BatchVerify signature batch) c.
Proof.
  unfold Cache.BatchVerify, call_BatchVerify, lookup_or. go_unfold.
  rewrite check_unfold. case_decide; [done|]. cbn.
  destruct (impl_BatchVerify signature batch); [|done].
  by destruct (insert _ _) as [[[] c2]|].
Qed.

(** The key a call to the primitive leaves in the cache, if any. *)
Definition key_of_call (ev : call Sig) : option bytes :=
  match ev with
  | CallSign m (Some s) => Some (Verify_key s m)
  | CallVerify s m true => Some (Verify_key s m)
  | CallBatchVerify s b true => Some (BatchVerify_key s b)
  | _ => None
  end.

(** The log holds what the primitive answered. *)
Definition truthful (ev : call Sig) : Prop :=
  match ev with
  | CallSign m r => ∃ st, (impl_Sign st m).1 = r
  | CallVerify s m r => r = impl_Verify s m
  | CallBatchVerify s b r => r = impl_BatchVerify s b
  end.

Record good c : Prop := {
  good_wf : wf c;
  good_bounded : bounded c;
  good_keys : ∀ k, k ∈ entries c -> ∃ ev, ev ∈ calls c ∧ key_of_call ev = Some k;
  good_calls : Forall truthful (calls c);
}.

Lemma NewCache_good (i : Impl) cap : good (NewCache i cap).
Proof.
  split; [apply NewCache_wf|apply NewCache_bounded| |by constructor].
  intros k Hk. cbn in Hk. set_solver.
Qed.

Lemma log_good c ev : good c -> truthful ev -> good (log ev c).
Proof.
  intros [[Hnd He] Hb Hk Hc] Hev. split; [by split|done| |].
  - intros k Hin. destruct (Hk k Hin) as (ev' & Hev' & Hkey).
    exists ev'. split; [|done]. cbn. apply elem_of_app. by left.
  - cbn. apply Forall_app. split; [done|]. by constructor.
Qed.

Lemma insert_good c key c' ev :
  good c -> ev ∈ calls c -> key_of_call ev = Some key ->
  insert key c = Some (tt, c') -> good c' ∧ same_frame c c'.
Proof.
  intros [Hwf Hb Hk Hc] Hev Hkey Hins.
  destruct (insert_Some c key c' Hwf Hb Hins) as (Hfr & Hwf' & Hb' & _).
  split; [|done]. destruct Hfr as (_ & _ & Hcalls).
  split; [done|done| |by rewrite Hcalls].
  intros k Hin. rewrite Hcalls.
  destruct (insert_entries c key c' k Hins Hin) as [->|Hold]; [by exists ev|].
  by apply Hk.
Qed.

Lemma MoveToFront_good c key :
  good c -> key ∈ entries c -> good (set_order (list_MoveToFront key) c).
Proof.
  intros [Hwf Hb Hk Hc] Hin. split; [by apply MoveToFront_wf| |done|done].
  unfold bounded, set_order in *. cbn [accessOrder capacity].
  by rewrite MoveToFront_length.
Qed.

Lemma lookup_or_good c key ev r b c' :
  good c -> truthful (ev r) -> (r = true -> key_of_call (ev true) = Some key) ->
  lookup_or key ev r c = Some (b, c') ->
  good c' ∧ capacity c' = capacity c.
Proof.
  intros Hg Hev Hkey. unfold lookup_or.
  case_decide as Hin; [|destruct r].
  - intros [= <- <-]. split; [by apply MoveToFront_good|done].
  - destruct (insert key (log (ev true) c)) as [[[] c2]|] eqn:Hins; [|done].
    intros [= <- <-].
    apply (insert_good _ _ _ (ev true)) in Hins as [Hg2 (_ & Hcap & _)];
      [split; [done|exact Hcap]| | |by apply Hkey].
    + by apply log_good.
    + cbn. apply elem_of_app. right. by left.
  - intros [= <- <-]. split; [by apply log_good|done].
Qed.

Lemma step_good c o c' :
  good c -> step o c = Some (tt, c') -> good c' ∧ capacity c' = capacity c.
Proof.
  intros Hg. destruct o as [m|s m|s b]; cbn; go_unfold.
  - fold (Sign m c). rewrite Sign_unfold. cbn zeta.
    destruct (impl_Sign (impl c) m) as [r i] eqn:Hs. cbn [fst snd].
    assert (good (log (CallSign m r)
                    (mkCache i (capacity c) (entries c) (accessOrder c) (calls c))))
      as Hg1.
    { apply log_good; [by destruct Hg as [[] ? ? ?]|].
      exists (impl c). by rewrite Hs. }
    destruct r as [sig|]; [|by intros [= <-]].
    destruct (insert _ _) as [[[] c2]|] eqn:Hins; [|done]. intros [= <-].
    apply (insert_good _ _ _ (CallSign m (Some sig))) in Hins
      as [Hg2 (_ & Hcap & _)]; [split; [done|exact Hcap]|done| |done].
    cbn. apply elem_of_app. right. by left.
  - fold (Verify s m c). rewrite Verify_unfold.
    destruct (lookup_or _ _ _ _) as [[b c1]|] eqn:Hl; [|done]. intros [= <-].
    by eapply lookup_or_good in Hl.
  - fold (BatchVerify s b c). rewrite BatchVerify_unfold.
    destruct (lookup_or _ _ _ _) as [[r c1]|] eqn:Hl; [|done]. intros [= <-].
    by eapply lookup_or_good in Hl.
Qed.

Lemma run_good ops c c' :
  good c -> run ops c = Some (tt, c') -> good c' ∧ capacity c' = capacity c.
Proof.
  revert c. induction ops as [|o ops IH]; intros c Hg; cbn; go_unfold.
  - by intros [= <-].
  - fold (step o c). destruct (step o c) as [[[] c1]|] eqn:Hstep; [|done].
    fold (run ops c1). intros Hrun.
    apply step_good in Hstep as [Hg1 Hcap1]; [|done].
    apply IH in Hrun as [Hg' Hcap']; [|done]. split; [done|congruence].
Qed.

Lemma take_foldl_MoveToFront n keys (l : list bytes) :
  take (S n) (foldl (fun l k => list_MoveToFront k l) (take (S n) l) keys)
  = take (S n) (foldl (fun l k => list_MoveToFront k l) l keys).
Proof.
  revert l. induction keys as [|k keys IH]; intros l; cbn [foldl].
  - by rewrite take_take, Nat.min_id.
  - rewrite <- IH, take_MoveToFront_take. apply IH.
Qed.

Lemma inserts_spec c keys :
  wf c -> bounded c -> 1 <= capacity c ->
  ∃ c', inserts keys c = Some (tt, c') ∧ same_frame c c' ∧ wf c' ∧ bounded c' ∧
        accessOrder c' =
          take (Z.to_nat (capacity c))
            (foldl (fun l k => list_MoveToFront k l) (accessOrder c) keys).
Proof.
  revert c. induction keys as [|k keys IH]; intros c Hwf Hb Hcap; cbn [inserts foldl].
  - exists c. split; [done|]. split; [done|]. split; [done|]. split; [done|].
    unfold bounded in Hb. rewrite take_ge; [done|lia].
  - destruct (insert_spec c k Hwf Hb Hcap) as (c1 & Hins & Hfr & Hwf1 & Hb1 & Hord).
    destruct Hfr as (Hi & Hc & Hl).
    destruct (IH c1 Hwf1 Hb1) as (c' & Hins' & Hfr' & Hwf' & Hb' & Hord'); [lia|].
    exists c'. go_unfold. rewrite Hins. split; [done|].
    destruct Hfr' as (Hi' & Hc' & Hl').
    split; [unfold same_frame; split; [|split]; congruence|].
    split; [done|]. split; [done|].
    rewrite Hord', Hord, Hc.
    replace (Z.to_nat (capacity c)) with (S (Z.to_nat (capacity c - 1))) by lia.
    apply take_foldl_MoveToFront.
Qed.

End Ops.
End CacheOps.

(** ** Statements about the cache *)
Module CacheClaims.
Import Cache CacheLRU CacheOps.

Section Claims.
Context {Sig Impl : Type} `{CB : CryptoBase Sig Impl}.
Variable sha256_Sum256 : bytes -> bytes.
Implicit Types c : cache Sig Impl.

#[local] Abbreviation Sign := (Sign sha256_Sum256).
#[local] Abbreviation Verify := (Verify sha256_Sum256).
#[local] Abbreviation BatchVerify := (BatchVerify sha256_Sum256).
#[local] Abbreviation Verify_key := (Verify_key sha256_Sum256).
#[local] Abbreviation BatchVerify_key := (BatchVerify_key sha256_Sum256).
#[local] Abbreviation run := (run sha256_Sum256).

Lemma reachable_good (i : Impl) cap ops c :
  run ops (NewCache i cap) = Some (tt, c) ->
  good sha256_Sum256 c ∧ capacity c = cap.
Proof.
  intros Hrun. eapply run_good in Hrun; [done|]. apply NewCache_good.
Qed.

(** C8. A cache built with a capacity [cap >= 0] never holds more than [cap]
    entries, whatever [Sign], [Verify] and [BatchVerify] calls it has served:
    an insert of a new key at size = capacity first drops the key at the back
    of the access order (the least recently used), and a lookup or a
    re-insert of a present key only moves it to the front. *)
Theorem cache_bounded (i : Impl) cap ops c :
  0 <= cap ->
  run ops (NewCache i cap) = Some (tt, c) ->
  Z.of_nat (size (entries c)) <= cap ∧
  (∀ key c', key ∉ entries c -> Z.of_nat (size (entries c)) = cap ->
     insert key c = Some (tt, c') ->
     ∃ lru rest, accessOrder c = rest ++ [lru] ∧ accessOrder c' = key :: rest ∧
                 entries c' = {[key]} ∪ entries c ∖ {[lru]} ∧
                 size (entries c') = size (entries c)) ∧
  (∀ key c', key ∈ entries c ->
     insert key c = Some (tt, c') ∨ check key c = Some (true, c') ->
     entries c' = entries c ∧
     accessOrder c' = list_MoveToFront key (accessOrder c)).
Proof.
  intros Hcap Hrun. apply reachable_good in Hrun as [[Hwf Hb _ _] Hc].
  pose proof (wf_size c Hwf) as Hsz. unfold bounded in Hb.
  split; [lia|]. split.
  - intros key c' Hnin Hfull Hins.
    destruct (insert_Some c key c' Hwf Hb Hins) as (_ & Hwf' & _ & _).
    apply wf_size in Hwf'. revert Hins Hwf'. rewrite insert_unfold.
    case_decide; [done|]. case_decide; [lia|].
    destruct (list_RemoveBack (accessOrder c)) as [[lru rest]|] eqn:Hback; [|done].
    apply list_RemoveBack_inv in Hback. intros [= <-]. cbn. intros Hsz'.
    exists lru, rest. split; [done|]. split; [done|]. split; [done|].
    rewrite Hsz', Hsz, Hback, length_app. cbn. lia.
  - intros key c' Hin [Hins|Hchk].
    + revert Hins. rewrite insert_unfold. case_decide; [|done]. by intros [= <-].
    + revert Hchk. rewrite check_unfold. case_decide; [|done]. by intros [= <-].
Qed.

(** With a capacity below one the cache never holds anything: the first
    insert panics. *)
Lemma cache_empty_without_capacity (i : Impl) cap ops c :
  cap <= 0 -> run ops (NewCache i cap) = Some (tt, c) -> entries c = ∅.
Proof.
  intros Hcap Hrun. apply reachable_good in Hrun as [[Hwf Hb _ _] Hc].
  pose proof (wf_size c Hwf) as Hsz. unfold bounded in Hb.
  apply leibniz_equiv, size_empty_iff. lia.
Qed.

(** C7, as the code has it.  After [k >= capacity + 1] insertions of pairwise
    distinct keys into a cache of capacity at least one, the cache holds
    exactly the [capacity] most recent keys, most recent first: the
    [(capacity + 1)]-th most recent key is absent, and every [n]-th most recent
    key with [1 <= n <= capacity] is present. *)
Theorem lru_keeps_capacity_most_recent (i : Impl) cap ops c keys :
  run ops (NewCache i cap) = Some (tt, c) ->
  1 <= cap ->
  NoDup keys ->
  cap + 1 <= Z.of_nat (length keys) ->
  ∃ c', inserts keys c = Some (tt, c') ∧
        accessOrder c' = take (Z.to_nat cap) (reverse keys) ∧
        (∀ key, most_recent (S (Z.to_nat cap)) keys = Some key -> key ∉ entries c') ∧
        (∀ n key, (1 <= n <= Z.to_nat cap)%nat ->
                  most_recent n keys = Some key -> key ∈ entries c').
Proof.
  intros Hrun Hcap Hnd Hlen.
  apply reachable_good in Hrun as [[Hwf Hb _ _] Hc].
  destruct (inserts_spec c keys Hwf Hb) as (c' & Hins & _ & Hwf' & _ & Hord); [lia|].
  exists c'. split; [done|].
  assert (accessOrder c' = take (Z.to_nat cap) (reverse keys)) as Hord'.
  { rewrite Hord, Hc, foldl_MoveToFront_NoDup by done.
    apply take_app_le. rewrite length_reverse. lia. }
  split; [done|]. split.
  - intros key Hkey Hin. apply (wf_entries _ Hwf') in Hin.
    rewrite Hord' in Hin. apply list_elem_of_lookup in Hin as [j Hj].
    apply lookup_take_Some in Hj as [Hj Hlt]. cbn in Hkey.
    assert (NoDup (reverse keys)) as Hrev by (by rewrite reverse_Permutation).
    pose proof (NoDup_lookup _ _ _ _ Hrev Hj Hkey). lia.
  - intros n key [Hn1 Hn2] Hkey. apply (wf_entries _ Hwf'). rewrite Hord'.
    destruct n as [|j]; [lia|]. cbn in Hkey.
    apply list_elem_of_lookup. exists j. rewrite lookup_take_lt by lia. done.
Qed.

(** C9. When [Sign] returns a signature, a [Verify] of that signature on the
    same message that follows immediately answers [true] from the cache: no
    call reaches the primitive. *)
Theorem Sign_then_Verify_hits (i : Impl) cap ops c m sig c1 :
  run ops (NewCache i cap) = Some (tt, c) ->
  Sign m c = Some (Some sig, c1) ->
  ∃ c2, Verify sig m c1 = Some (true, c2) ∧ calls c2 = calls c1.
Proof.
  intros Hrun Hsign. apply reachable_good in Hrun as [[Hwf Hb _ _] Hc].
  assert (Verify_key sig m ∈ entries c1) as Hin.
  { revert Hsign. rewrite Sign_unfold. cbn zeta.
    destruct (impl_Sign (impl c) m) as [[sig'|] i'] eqn:Hs; cbn [fst snd]; [|done].
    destruct (insert _ _) as [[[] c2]|] eqn:Hins; [|done]. intros [= -> <-].
    apply insert_Some in Hins as (_ & _ & _ & Hin); [done| |done].
    destruct Hwf as [Hnd He]. by split. }
  rewrite Verify_unfold. unfold lookup_or. rewrite decide_True by done.
  by eexists.
Qed.

(** What the primitive's own [Sign] and [Verify] owe each other. *)
Definition Sign_sound : Prop :=
  ∀ st m sig, (impl_Sign st m).1 = Some sig -> impl_Verify sig m = true.

(** The cache key of the pair [(s, m)] is not shared with another input that
    reached the primitive. *)
Definition no_collision (s : Sig) (m : bytes) (ev : call Sig) : Prop :=
  match ev with
  | CallSign m' (Some s') | CallVerify s' m' true =>
      Verify_key s' m' = Verify_key s m -> s' = s ∧ m' = m
  | CallBatchVerify s' b true => BatchVerify_key s' b ≠ Verify_key s m
  | _ => True
  end.

(** C1, as the code has it.  In every state reached by [Sign], [Verify] and
    [BatchVerify] calls, [cache.Verify(s, m)] answers what the primitive's
    [Verify(s, m)] answers, for a primitive whose signatures verify and as
    long as no other input served so far has the cache key of [(s, m)], the
    digest of [m] followed by the bytes of [s].  The answer is produced
    whenever the cache has room for one key. *)
Theorem cache_Verify_agrees (i : Impl) cap ops c s m :
  Sign_sound ->
  run ops (NewCache i cap) = Some (tt, c) ->
  Forall (no_collision s m) (calls c) ->
  (∀ b c', Verify s m c = Some (b, c') -> b = impl_Verify s m) ∧
  (1 <= cap -> ∃ c', Verify s m c = Some (impl_Verify s m, c')).
Proof.
  intros Hsound Hrun Hfree.
  apply reachable_good in Hrun as [[Hwf Hb Hkeys Hlog] Hc].
  rewrite Verify_unfold. unfold lookup_or.
  case_decide as Hin.
  - assert (impl_Verify s m = true) as ->.
    { destruct (Hkeys _ Hin) as (ev & Hev & Hkey).
      rewrite Forall_forall in Hfree, Hlog.
      specialize (Hfree _ Hev). specialize (Hlog _ Hev).
      destruct ev as [m' [s'|]|s' m' [|]|s' b [|]]; cbn in Hkey, Hfree, Hlog;
        try done; injection Hkey as Hkey.
      - destruct (Hfree Hkey) as [-> ->]. destruct Hlog as [st Hst].
        by eapply Hsound.
      - by destruct (Hfree Hkey) as [-> ->].
      - done. }
    split; [by intros b c' [= <- _]|]. intros _. by eexists.
  - destruct (impl_Verify s m) eqn:Hv.
    + split.
      * destruct (insert _ _) as [[[] c2]|]; [|done]. by intros b c' [= <- _].
      * intros Hcap1.
        destruct (insert_spec (log (CallVerify s m true) c) (Verify_key s m))
          as (c2 & -> & _); [by destruct Hwf|done|cbn; lia|]. by eexists.
    + split; [by intros b c' [= <- _]|]. intros _. by eexists.
Qed.

(** The key of [BatchVerify] does not depend on the batch: the 32-byte array
    handed to [Sum] has no capacity left, so the digest goes to a fresh array
    and [hash] keeps its zero value. *)
Lemma BatchVerify_key_eq signature batch :
  BatchVerify_key signature batch = zero_Hash ++ ToBytes signature.
Proof.
  unfold Cache.BatchVerify_key, hasher_Sum, slice_append.
  case_decide as Hfit; [|done].
  destruct (sha256_Sum256 _) as [|x xs]; [done|]. cbn in Hfit. lia.
Qed.

End Claims.

Lemma cache_Verify_agrees_witness :
  Verify_key Toy.digest (Toy.sign Toy.a) Toy.a
  ∈ entries (Toy.after (run Toy.digest Toy.history) (NewCache tt 3)) ∧
  (∀ b c', Verify Toy.digest (Toy.sign Toy.a) Toy.a
             (Toy.after (run Toy.digest Toy.history) (NewCache tt 3)) = Some (b, c') ->
           b = impl_Verify (Toy.sign Toy.a) Toy.a) ∧
  (1 <= 3 ->
   ∃ c', Verify Toy.digest (Toy.sign Toy.a) Toy.a
           (Toy.after (run Toy.digest Toy.history) (NewCache tt 3))
         = Some (impl_Verify (Toy.sign Toy.a) Toy.a, c')).
Proof.
  split; [apply (bool_decide_unpack _); by vm_compute|].
  apply (cache_Verify_agrees Toy.digest tt 3 Toy.history).
  - intros st m sig [= <-]. by apply bool_decide_eq_true_2.
  - vm_compute. reflexivity.
  - set (l := calls _). vm_compute in l. subst l.
    repeat constructor; vm_compute; (done || by intros [= <-]).
Defined.

(** C1 as worded fails.  Over a primitive whose [ToBytes] leaves the signer
    out, the cache that has verified replica 1's signature on [a] answers
    [true] for the same bytes attributed to replica 2, which the primitive
    rejects.  Over a primitive whose [Sign] returns a signature its [Verify]
    rejects, the cache answers [true] for that signature right after
    [Sign]. *)
Lemma cache_Verify_true_for_rejected_pair :
  (Verify (CB := Toy.anonymous) Toy.digest (1%N, Toy.sign Toy.a) Toy.a (NewCache tt 2)
   = Some (true,
           Toy.after_any
             (Verify (CB := Toy.anonymous) Toy.digest (1%N, Toy.sign Toy.a) Toy.a)
             (NewCache tt 2)) ∧
   impl_Verify (CryptoBase := Toy.anonymous) (2%N, Toy.sign Toy.a) Toy.a = false ∧
   fst <$> Verify (CB := Toy.anonymous) Toy.digest (2%N, Toy.sign Toy.a) Toy.a
             (Toy.after_any
                (Verify (CB := Toy.anonymous) Toy.digest (1%N, Toy.sign Toy.a) Toy.a)
                (NewCache tt 2))
   = Some true) ∧
  (fst <$> Sign (CB := Toy.careless) Toy.digest Toy.a (NewCache tt 2) = Some (Some Toy.a) ∧
   impl_Verify (CryptoBase := Toy.careless) Toy.a Toy.a = false ∧
   fst <$> Verify (CB := Toy.careless) Toy.digest Toy.a Toy.a
             (Toy.after_any (Sign (CB := Toy.careless) Toy.digest Toy.a) (NewCache tt 2))
   = Some true).
Proof.
  split.
  - split; [vm_compute; reflexivity|]. split; [reflexivity|]. vm_compute. reflexivity.
  - split; [vm_compute; reflexivity|]. split; [reflexivity|]. vm_compute. reflexivity.
Qed.

(** C2, on the code: [BatchVerify] accepts the batch [{1: b}] under a
    signature the primitive rejects for it, because the successful check of
    [{1: a}] under the same signature left the very same key in the cache. *)
Theorem BatchVerify_hits_other_batch (sha256_Sum256 : bytes -> bytes) :
  let sig := Toy.sign Toy.a in
  let batch1 : gmap N bytes := {[1%N := Toy.a]} in
  let batch2 : gmap N bytes := {[1%N := Toy.b]} in
  let c1 := Toy.after (BatchVerify sha256_Sum256 sig batch1) (NewCache tt 100) in
  let c2 := Toy.after (BatchVerify sha256_Sum256 sig batch2) c1 in
  impl_BatchVerify sig batch1 = true ∧
  impl_BatchVerify sig batch2 = false ∧
  BatchVerify_key sha256_Sum256 sig batch1 = BatchVerify_key sha256_Sum256 sig batch2 ∧
  BatchVerify sha256_Sum256 sig batch1 (NewCache tt 100) = Some (true, c1) ∧
  BatchVerify sha256_Sum256 sig batch2 c1 = Some (true, c2) ∧
  calls c2 = calls c1.
Proof.
  intros sig batch1 batch2 c1 c2. subst c2 c1. unfold Toy.after.
  split; [by vm_compute|]. split; [by vm_compute|].
  split; [by rewrite !BatchVerify_key_eq|].
  rewrite !BatchVerify_unfold, !BatchVerify_key_eq.
  split; [vm_compute; reflexivity|]. split; vm_compute; reflexivity.
Qed.

Lemma lru_keeps_capacity_most_recent_witness :
  ∃ c', inserts [Toy.a; Toy.b; Toy.c] (NewCache (Sig:=bytes) tt 2) = Some (tt, c') ∧
        accessOrder c' = take (Z.to_nat 2) (reverse [Toy.a; Toy.b; Toy.c]) ∧
        (∀ key, most_recent (S (Z.to_nat 2)) [Toy.a; Toy.b; Toy.c] = Some key ->
                key ∉ entries c') ∧
        (∀ n key, (1 <= n <= Z.to_nat 2)%nat ->
                  most_recent n [Toy.a; Toy.b; Toy.c] = Some key -> key ∈ entries c').
Proof.
  apply (lru_keeps_capacity_most_recent Toy.digest tt 2 []).
  - reflexivity.
  - lia.
  - apply (bool_decide_unpack _). by vm_compute.
  - cbn. lia.
Defined.

(** C7 as worded fails: with capacity 2 and the keys [a], [b], [c] inserted in
    that order, the second most recent key [b] is still in the cache. *)
Lemma lru_capacity_th_most_recent_present :
  inserts [Toy.a; Toy.b; Toy.c] (NewCache tt 2)
  = Some (tt, Toy.after (inserts [Toy.a; Toy.b; Toy.c]) (NewCache tt 2)) ∧
  most_recent (Z.to_nat 2) [Toy.a; Toy.b; Toy.c] = Some Toy.b ∧
  Toy.b ∈ entries (Toy.after (inserts [Toy.a; Toy.b; Toy.c]) (NewCache tt 2)).
Proof.
  split; [vm_compute; reflexivity|]. split; [reflexivity|].
  apply (bool_decide_unpack _). by vm_compute.
Qed.

Lemma Sign_then_Verify_hits_witness :
  ∃ c2, Verify Toy.digest (Toy.sign Toy.b) Toy.b
          (Toy.after (Sign Toy.digest Toy.b)
             (Toy.after (run Toy.digest [OpSign Toy.a]) (NewCache tt 2)))
        = Some (true, c2) ∧
        calls c2 = calls (Toy.after (Sign Toy.digest Toy.b)
                            (Toy.after (run Toy.digest [OpSign Toy.a]) (NewCache tt 2))).
Proof.
  apply (Sign_then_Verify_hits Toy.digest tt 2 [OpSign Toy.a]
           (Toy.after (run Toy.digest [OpSign Toy.a]) (NewCache tt 2))).
  - vm_compute. reflexivity.
  - vm_compute. reflexivity.
Defined.

Lemma cache_bounded_witness :
  Z.of_nat (size (entries (Toy.after (run Toy.digest Toy.history) (NewCache tt 2))))
  <= 2.
Proof.
  refine (proj1 (cache_bounded Toy.digest tt 2 Toy.history _ _ _)).
  - lia.
  - vm_compute. reflexivity.
Defined.

End CacheClaims.

(** ** Statements about the carousel *)
Module CarouselClaims.
Import Consensus Carousel.

Lemma size_list_to_set_le (l : list N) :
  (size (list_to_set l : gset N) <= length l)%nat.
Proof.
  induction l as [|x l IH]; cbn; [by rewrite size_empty|].
  rewrite size_union_alt, size_singleton.
  pose proof (subseteq_size (list_to_set l ∖ {[x]}) (list_to_set l : gset N)) as Hs.
  assert (list_to_set l ∖ {[x]} ⊆ (list_to_set l : gset N)) as Hsub by set_solver.
  specialize (Hs Hsub). lia.
Qed.

Lemma length_filter_not_in_aux (s : gset N) (l : list N) :
  NoDup l ->
  (length l <= length (filter (fun i => i ∉ s) l) + size (s ∩ list_to_set l))%nat.
Proof.
  induction 1 as [|x l Hx Hnd IH]; [cbn; lia|].
  destruct (decide (x ∈ s)) as [Hin|Hnin].
  - rewrite filter_cons_False by (intros ?; done).
    assert (s ∩ list_to_set (x :: l) = {[x]} ∪ (s ∩ list_to_set l)) as ->
      by set_solver.
    rewrite size_union, size_singleton by set_solver. cbn [length]. lia.
  - rewrite filter_cons_True by done.
    assert (s ∩ list_to_set (x :: l) = s ∩ list_to_set l) as -> by set_solver.
    cbn [length]. lia.
Qed.

Lemma length_filter_not_in (s : gset N) (l : list N) :
  NoDup l -> (length l <= length (filter (fun i => i ∉ s) l) + size s)%nat.
Proof.
  intros Hnd. pose proof (length_filter_not_in_aux s l Hnd).
  pose proof (subseteq_size (s ∩ list_to_set l) s) as Hs.
  assert (s ∩ list_to_set l ⊆ s) as Hsub by set_solver.
  specialize (Hs Hsub). lia.
Qed.

Section Props.
Context {R : Type} `{RS : Rand R}.
Variable GetGenesis : Block.
Variable chooseRoundRobin : Z -> Z -> N.
Implicit Types (c : carousel R) (m : Modules).

#[local] Abbreviation collect := (collect GetGenesis).
#[local] Abbreviation visited := (visited GetGenesis).
#[local] Abbreviation lastAuthors_of := (lastAuthors_of GetGenesis).
#[local] Abbreviation candidates_of := (candidates_of GetGenesis).
#[local] Abbreviation GetLeader := (GetLeader GetGenesis chooseRoundRobin).

(** The blocks walked from the commit head, as [lastAuthors_of] sees them. *)
Definition walked m : list Block :=
  visited (BlockChain m) (Z.to_nat (NumFaulty (Configuration_Len m)))
    (Some (CommittedBlock m)).

Lemma collect_visited chain n block acc :
  collect chain n block acc
  = list_to_set (Proposer <$> visited chain n block) ∪ acc.
Proof.
  revert block acc. induction n as [|n IH]; intros [b|] acc; cbn;
    try (by rewrite union_empty_l_L).
  case_decide; cbn; [by rewrite union_empty_l_L|].
  rewrite IH, (assoc_L (∪)). f_equal. apply (comm_L (∪)).
Qed.

Lemma length_visited chain n block : (length (visited chain n block) <= n)%nat.
Proof.
  revert block. induction n as [|n IH]; intros [b|]; cbn; try lia.
  case_decide; cbn; [lia|]. specialize (IH (chain !! Parent b)). lia.
Qed.

Lemma lastAuthors_walked m :
  lastAuthors_of m = list_to_set (Proposer <$> walked m).
Proof.
  unfold Carousel.lastAuthors_of, walked. rewrite collect_visited.
  by rewrite union_empty_r_L.
Qed.

Lemma size_lastAuthors m :
  (size (lastAuthors_of m) <= Z.to_nat (NumFaulty (Configuration_Len m)))%nat.
Proof.
  rewrite lastAuthors_walked.
  etrans; [apply size_list_to_set_le|]. rewrite length_fmap.
  apply length_visited.
Qed.

(** The carousel path proper: once the two fall-backs are passed and a
    candidate exists, the leader is the candidate the generator points at. *)
Lemma GetLeader_carousel c round sig :
  Signature (cert (CommittedBlock (mods c))) = Some sig ->
  View (CommittedBlock (mods c)) = View_sub round (ChainLength (mods c)) ->
  0 <= Configuration_Len (mods c) - NumFaulty (Configuration_Len (mods c)) ->
  candidates_of (mods c) sig ≠ [] ->
  let r := (rand_Int (rnd c)).1 in
  let n := Z.of_nat (length (candidates_of (mods c) sig)) in
  0 <= Z.rem r n < n ∧
  ∃ leader,
    candidates_of (mods c) sig !! Z.to_nat (Z.rem r n) = Some leader ∧
    GetLeader c round = Some (leader, mkCarousel (mods c) (rand_Int (rnd c)).2).
Proof.
  intros Hsig Hview Hcap Hne r n.
  assert (n = Z.of_nat (length (candidates_of (mods c) sig))) as Hneq by done.
  assert (r = (rand_Int (rnd c)).1) as Hreq by done.
  clearbody r n.
  assert (0 < n) as Hn.
  { subst n. destruct (candidates_of (mods c) sig); [done|cbn; lia]. }
  assert (0 <= Z.rem r n < n) as Hidx.
  { apply Z.rem_bound_pos; [|done]. subst r. apply rand_Int_range. }
  split; [done|].
  destruct (lookup_lt_is_Some_2 (candidates_of (mods c) sig) (Z.to_nat (Z.rem r n)))
    as [leader Hl]; [lia|].
  exists leader. split; [done|].
  unfold Carousel.GetLeader. rewrite Hsig.
  rewrite decide_False by (intros Hv; by apply Hv).
  rewrite decide_False by lia.
  fold (candidates_of (mods c) sig).
  destruct (rand_Int (rnd c)) as [r' rnd'] eqn:Hr. cbn [fst snd] in *. subst r'.
  rewrite <- Hneq.
  rewrite decide_False by lia. rewrite decide_True by lia.
  by rewrite Hl.
Qed.

(** C5, as the code has it.  [GetLeader] answers round-robin while the commit
    head carries no signature or its view is not [round - ChainLength()].
    Otherwise [lastAuthors] holds the proposers of the at most [f] blocks
    walked from the commit head and, when some participant of the head's
    certificate is not among them, the leader is such a participant.  When
    [f >= 1], the commit head is not genesis and every walked block was
    proposed by replica 1, the leader is a participant other than 1. *)
Theorem GetLeader_spec c round :
  let m := mods c in
  let n := Configuration_Len m in
  let f := NumFaulty n in
  let head := CommittedBlock m in
  (Signature (cert head) = None ∨ View head ≠ View_sub round (ChainLength m) ->
   GetLeader c round = Some (chooseRoundRobin round n, c)) ∧
  (∀ sig,
     Signature (cert head) = Some sig ->
     View head = View_sub round (ChainLength m) ->
     lastAuthors_of m = list_to_set (Proposer <$> walked m) ∧
     (length (walked m) <= Z.to_nat f)%nat ∧
     (0 <= n -> (∃ p, p ∈ Participants sig ∧ p ∉ lastAuthors_of m) ->
      ∃ leader c', GetLeader c round = Some (leader, c') ∧
                   leader ∈ Participants sig ∧ leader ∉ lastAuthors_of m) ∧
     (1 <= f -> head ≠ GetGenesis ->
      Forall (fun b => Proposer b = 1%N) (walked m) ->
      (∃ p, p ∈ Participants sig ∧ p ≠ 1%N) ->
      ∃ leader c', GetLeader c round = Some (leader, c') ∧
                   leader ∈ Participants sig ∧ leader ≠ 1%N)).
Proof.
  intros m n f head.
  assert (0 <= n -> 0 <= n - f) as Hquorum.
  { intros Hn. unfold f, NumFaulty.
    pose proof (Z.mul_div_le (n - 1) 3). lia. }
  assert (∀ sig, Signature (cert head) = Some sig ->
                 View head = View_sub round (ChainLength m) ->
                 0 <= n -> (∃ p, p ∈ Participants sig ∧ p ∉ lastAuthors_of m) ->
                 ∃ leader c', GetLeader c round = Some (leader, c') ∧
                   leader ∈ Participants sig ∧ leader ∉ lastAuthors_of m) as Hpick.
  { intros sig Hsig Hview Hn (p & Hp & Hnot).
    destruct (GetLeader_carousel c round sig Hsig Hview) as (_ & leader & Hl & Hget).
    - by apply Hquorum.
    - intros Hnil. assert (p ∈ candidates_of m sig) as Hin.
      { apply list_elem_of_filter. by split. }
      fold m in Hnil. rewrite Hnil in Hin. by apply elem_of_nil in Hin.
    - exists leader, (mkCarousel (mods c) (rand_Int (rnd c)).2).
      split; [done|]. apply list_elem_of_lookup_2 in Hl.
      apply list_elem_of_filter in Hl as [? ?]. by split. }
  split.
  - intros Hfall. unfold Carousel.GetLeader. fold m head n.
    destruct (Signature (cert head)) as [sig|]; [|done].
    destruct Hfall as [?|Hview]; [done|]. by rewrite decide_True.
  - intros sig Hsig Hview.
    split; [apply lastAuthors_walked|]. split; [apply length_visited|].
    split; [by apply Hpick|].
    intros Hf Hhead Hall (p & Hp & Hp1).
    assert (lastAuthors_of m = {[1%N]}) as Hone.
    { rewrite lastAuthors_walked. revert Hall. unfold walked. fold n f head.
      destruct (Z.to_nat f) as [|k] eqn:Hk; [lia|]. cbn [Carousel.visited].
      rewrite decide_False by done. intros Hall.
      apply Forall_cons in Hall as [H1 Hall]. cbn. rewrite H1.
      apply set_eq. intros x. rewrite elem_of_union, elem_of_singleton.
      rewrite elem_of_list_to_set, list_elem_of_fmap. split; [|by left].
      intros [->|(b & -> & Hb)]; [done|]. rewrite Forall_forall in Hall.
      by apply Hall. }
    destruct (Hpick sig Hsig Hview) as (leader & c' & Hget & Hin & Hnot).
    + unfold f, NumFaulty in Hf.
      destruct (decide (0 <= n)) as [|Hneg]; [done|].
      assert ((n - 1) / 3 < 0); [|lia]. apply Z.div_lt_upper_bound; lia.
    + exists p. split; [done|]. rewrite Hone. set_solver.
    + exists leader, c'. split; [done|]. split; [done|].
      rewrite Hone in Hnot. set_solver.
Qed.

(** C6, as the code has it.  [GetLeader] changes nothing but the state of the
    generator: on the round-robin paths it returns the carousel as it was, and
    on the carousel path what it returns has the same [c.mods] and the
    generator stepped exactly once.  The leader is determined by what [c.mods]
    shows, the view and the number the generator returns next. *)
Theorem GetLeader_deterministic_up_to_rnd :
  (∀ c round,
     Signature (cert (CommittedBlock (mods c))) = None ∨
     View (CommittedBlock (mods c)) ≠ View_sub round (ChainLength (mods c)) ->
     GetLeader c round
     = Some (chooseRoundRobin round (Configuration_Len (mods c)), c)) ∧
  (∀ c round sig leader c',
     Signature (cert (CommittedBlock (mods c))) = Some sig ->
     View (CommittedBlock (mods c)) = View_sub round (ChainLength (mods c)) ->
     GetLeader c round = Some (leader, c') ->
     c' = mkCarousel (mods c) (rand_Int (rnd c)).2) ∧
  (∀ c1 c2 round,
     mods c1 = mods c2 ->
     (rand_Int (rnd c1)).1 = (rand_Int (rnd c2)).1 ->
     fst <$> GetLeader c1 round = fst <$> GetLeader c2 round).
Proof.
  split; [|split].
  - intros c round Hfall. unfold Carousel.GetLeader.
    destruct (Signature _) as [sig|]; [|done].
    destruct Hfall as [?|Hview]; [done|]. by rewrite decide_True.
  - intros c round sig leader c' Hsig Hview. unfold Carousel.GetLeader.
    rewrite Hsig. rewrite decide_False by (intros Hv; by apply Hv).
    case_decide; [done|].
    destruct (rand_Int (rnd c)) as [r rnd'].
    case_decide; [done|]. case_decide; [|done].
    destruct (_ !! _); [|done]. by intros [= _ <-].
  - intros c1 c2 round Hm Hr. unfold Carousel.GetLeader. rewrite <- Hm.
    destruct (Signature _) as [sig|]; [|done].
    case_decide; [done|]. case_decide; [done|].
    destruct (rand_Int (rnd c1)) as [r1 s1], (rand_Int (rnd c2)) as [r2 s2].
    cbn [fst] in Hr. subst r2.
    case_decide; [done|]. case_decide; [|done].
    by destruct (_ !! _).
Qed.

(** C10. On the carousel path, with at least one replica configured and a
    commit head certified by a quorum of distinct participants, the list of
    candidates is not empty: [lastAuthors] has at most [f] members and a
    quorum has [N - f > f].  The index [rnd.Int() % len(candidates)] is then
    in bounds and [GetLeader] returns the candidate at that index. *)
Theorem candidates_nonempty c round sig :
  let m := mods c in
  let n := Configuration_Len m in
  0 < n ->
  Signature (cert (CommittedBlock m)) = Some sig ->
  View (CommittedBlock m) = View_sub round (ChainLength m) ->
  NoDup (Participants sig) ->
  QuorumSize n <= Z.of_nat (length (Participants sig)) ->
  NumFaulty n < QuorumSize n ∧
  Z.of_nat (size (lastAuthors_of m)) <= NumFaulty n ∧
  candidates_of m sig ≠ [] ∧
  let idx := Z.rem (rand_Int (rnd c)).1 (Z.of_nat (length (candidates_of m sig))) in
  0 <= idx < Z.of_nat (length (candidates_of m sig)) ∧
  ∃ leader c', candidates_of m sig !! Z.to_nat idx = Some leader ∧
               GetLeader c round = Some (leader, c').
Proof.
  intros m n Hn Hsig Hview Hnd Hq.
  pose proof (size_lastAuthors m) as Hsz. fold n in Hsz.
  pose proof (length_filter_not_in (lastAuthors_of m) _ Hnd) as Hlen.
  fold (candidates_of m sig) in Hlen.
  assert (0 <= NumFaulty n ∧ NumFaulty n < QuorumSize n) as [Hf0 Hfq].
  { unfold QuorumSize, NumFaulty.
    pose proof (Z.mul_div_le (n - 1) 3). pose proof (Z.div_pos (n - 1) 3). lia. }
  split; [done|]. split; [lia|].
  assert (candidates_of m sig ≠ []) as Hne.
  { intros Hnil. rewrite Hnil in Hlen. cbn in Hlen. lia. }
  split; [done|].
  destruct (GetLeader_carousel c round sig Hsig Hview) as (Hidx & leader & Hl & Hget);
    [unfold QuorumSize in Hfq; fold m n; lia|done|].
  cbn zeta. split; [done|]. by exists leader, (mkCarousel (mods c) (rand_Int (rnd c)).2).
Qed.

End Props.

Lemma GetLeader_spec_witness :
  ∃ leader c',
    GetLeader Toy.genesis Toy.round_robin (Toy.replica_state 4 [1; 2; 3]%N) 5
    = Some (leader, c') ∧
    leader ∈ [1; 2; 3]%N ∧ leader ≠ 1%N.
Proof.
  pose proof (GetLeader_spec Toy.genesis Toy.round_robin
                (Toy.replica_state 4 [1; 2; 3]%N) 5) as [_ Hcar].
  destruct (Hcar (mkQuorumSignature [1; 2; 3]%N) eq_refl eq_refl)
    as (_ & _ & _ & Hone).
  apply Hone.
  - by vm_compute.
  - by vm_compute.
  - vm_compute. repeat constructor.
  - exists 2%N. split; [|done]. set_solver.
Defined.

(** C5 as worded fails when [f = 0]: with three replicas the walk from the
    commit head visits no block, and replica 1, who proposed the commit head
    and its parent, is elected again. *)
Lemma GetLeader_reelects_author :
  NumFaulty 3 = 0 ∧
  Proposer (Toy.block2 [1; 2; 3]%N) = 1%N ∧
  Proposer (Toy.block1 [1; 2; 3]%N) = 1%N ∧
  Forall (fun b => Proposer b = 1%N)
    (walked Toy.genesis (mods (Toy.replica_state 3 [1; 2; 3]%N))) ∧
  GetLeader Toy.genesis Toy.round_robin (Toy.replica_state 3 [1; 2; 3]%N) 5
  = Some (1%N, mkCarousel (mods (Toy.replica_state 3 [1; 2; 3]%N)) 1).
Proof.
  split; [reflexivity|]. split; [reflexivity|]. split; [reflexivity|].
  split; [by vm_compute|]. vm_compute. reflexivity.
Qed.

Lemma GetLeader_deterministic_up_to_rnd_witness :
  (∀ leader c',
     GetLeader Toy.genesis Toy.round_robin (Toy.replica_state 4 [1; 2; 3; 4]%N) 5
     = Some (leader, c') ->
     c' = mkCarousel (mods (Toy.replica_state 4 [1; 2; 3; 4]%N))
            (rand_Int (rnd (Toy.replica_state 4 [1; 2; 3; 4]%N))).2) ∧
  GetLeader Toy.genesis Toy.round_robin (Toy.replica_state 4 [1; 2; 3; 4]%N) 4
  = Some (Toy.round_robin 4 4, Toy.replica_state 4 [1; 2; 3; 4]%N) ∧
  fst <$> GetLeader Toy.genesis Toy.round_robin (Toy.replica_state 4 [1; 2; 3; 4]%N) 5
  = fst <$> GetLeader Toy.genesis Toy.round_robin
              (mkCarousel (mods (Toy.replica_state 4 [1; 2; 3; 4]%N)) (2 ^ 63)) 5.
Proof.
  pose proof (GetLeader_deterministic_up_to_rnd Toy.genesis Toy.round_robin)
    as (Hrr & Hstep & Hsame).
  split; [|split].
  - intros leader c'.
    apply (Hstep (Toy.replica_state 4 [1; 2; 3; 4]%N) 5
             (mkQuorumSignature [1; 2; 3; 4]%N)); reflexivity.
  - apply (Hrr (Toy.replica_state 4 [1; 2; 3; 4]%N) 4). right. by vm_compute.
  - apply Hsame; reflexivity.
Defined.

(** C6 as worded fails: two calls in a row on the same block tree and view
    elect different replicas, the generator having moved on in between. *)
Lemma GetLeader_twice_differs :
  GetLeader Toy.genesis Toy.round_robin (Toy.replica_state 4 [1; 2; 3; 4]%N) 5
  = Some (2%N, mkCarousel (mods (Toy.replica_state 4 [1; 2; 3; 4]%N)) 1) ∧
  GetLeader Toy.genesis Toy.round_robin
    (mkCarousel (mods (Toy.replica_state 4 [1; 2; 3; 4]%N)) 1) 5
  = Some (3%N, mkCarousel (mods (Toy.replica_state 4 [1; 2; 3; 4]%N)) 2).
Proof.
  split; vm_compute; reflexivity.
Qed.

Lemma candidates_nonempty_witness :
  candidates_of Toy.genesis (mods (Toy.replica_state 4 [2; 3; 4]%N))
    (mkQuorumSignature [2; 3; 4]%N) ≠ [].
Proof.
  apply (candidates_nonempty Toy.genesis Toy.round_robin
           (Toy.replica_state 4 [2; 3; 4]%N) 5 (mkQuorumSignature [2; 3; 4]%N)).
  - by vm_compute.
  - reflexivity.
  - reflexivity.
  - apply (bool_decide_unpack _). by vm_compute.
  - by vm_compute.
Defined.

End CarouselClaims.

(** ** Statements about the twins simulator *)
Module TwinsClaims.
Import Consensus Twins.

(** *** The drop decision *)

Lemma wrap_int_small z : - 2 ^ 63 <= z < 2 ^ 63 -> wrap_int z = z.
Proof.
  intros Hz. unfold wrap_int. rewrite Z.mod_small by lia. lia.
Qed.

Lemma some_partition_has_both_spec partitions sender receiver :
  some_partition_has_both partitions sender receiver = true <->
  ∃ p, p ∈ partitions ∧ sender ∈ p ∧ receiver ∈ p.
Proof.
  induction partitions as [|p ps IH]; cbn.
  - split; [done|]. intros (p & Hp & _). by apply elem_of_nil in Hp.
  - case_decide as Hd.
    + split; [|done]. intros _. exists p. split; [by left|done].
    + rewrite IH. split.
      * intros (q & Hq & Hboth). exists q. split; [by right|done].
      * intros (q & [->|Hq]%elem_of_cons & Hboth); [done|]. by exists q.
Qed.

(** The index into the view plan is the effective view minus one, as long as
    the view fits an [int]. *)
Lemma shouldDrop_index nd :
  0 <= effective_view nd < 2 ^ 63 ->
  (if decide (effectiveView nd > Synchronizer_View nd)
   then wrap_int (-1 + wrap_int (effectiveView nd))
   else wrap_int (-1 + wrap_int (Synchronizer_View nd)))
  = effective_view nd - 1.
Proof.
  unfold effective_view. intros Hv.
  case_decide; rewrite !wrap_int_small; rewrite ?wrap_int_small; lia.
Qed.

(** The decision for every effective view that fits an [int], the views
    before view 1 included. *)
Lemma shouldDrop_cases n sender receiver message nd :
  nodes n !! sender = Some nd ->
  0 <= effective_view nd < 2 ^ 63 ->
  let i := effective_view nd - 1 in
  (i < 0 -> shouldDrop n sender receiver message = Some false) ∧
  (Z.of_nat (length (views n)) <= i ->
   shouldDrop n sender receiver message = Some true) ∧
  (∀ v, 0 <= i -> views n !! Z.to_nat i = Some v ->
     ((∃ p, p ∈ Partitions v ∧ sender ∈ p ∧ receiver ∈ p) ->
      shouldDrop n sender receiver message = Some false) ∧
     (¬ (∃ p, p ∈ Partitions v ∧ sender ∈ p ∧ receiver ∈ p) ->
      shouldDrop n sender receiver message
      = Some (bool_decide (message ∈ dropTypes n)))).
Proof.
  intros Hnd Hview i. unfold shouldDrop. rewrite Hnd.
  rewrite shouldDrop_index by done. fold i.
  split; [|split].
  - intros Hi. by rewrite decide_True.
  - intros Hi. rewrite decide_False by lia. by rewrite decide_True by lia.
  - intros v Hi Hv. apply lookup_lt_Some in Hv as Hlt.
    rewrite decide_False by lia. rewrite decide_False by lia. rewrite Hv.
    destruct (some_partition_has_both _ _ _) eqn:Hp.
    + split; [done|]. intros Hnone. exfalso. apply Hnone.
      by apply some_partition_has_both_spec.
    + split; [|done]. intros Hsome%some_partition_has_both_spec. congruence.
Qed.

(** C4. For a send by a node of the network in a view from 1 on (views start
    at 1), with [i] the sender's effective view minus one, the effective view
    being the larger of its synchronizer's view and its timeout-advanced view:
    the message is dropped when [i] is out of range of the view plan;
    otherwise it is delivered when some partition of entry [i] holds both the
    sender and the receiver, and when none does it is dropped exactly when its
    type is in the drop set. *)
Theorem shouldDrop_decision n sender receiver message nd :
  nodes n !! sender = Some nd ->
  1 <= effective_view nd < 2 ^ 63 ->
  let i := effective_view nd - 1 in
  (¬ (0 <= i < Z.of_nat (length (views n))) ->
   shouldDrop n sender receiver message = Some true) ∧
  (∀ v, views n !! Z.to_nat i = Some v ->
     ((∃ p, p ∈ Partitions v ∧ sender ∈ p ∧ receiver ∈ p) ->
      shouldDrop n sender receiver message = Some false) ∧
     (¬ (∃ p, p ∈ Partitions v ∧ sender ∈ p ∧ receiver ∈ p) ->
      shouldDrop n sender receiver message
      = Some (bool_decide (message ∈ dropTypes n)))).
Proof.
  intros Hnd Hview i.
  destruct (shouldDrop_cases n sender receiver message nd Hnd) as (_ & Hhigh & Hin);
    [lia|].
  split.
  - intros Hout. apply Hhigh. fold i. subst i. lia.
  - intros v Hv. apply Hin; [subst i; lia|done].
Qed.

Lemma shouldDrop_decision_witness :
  (¬ (0 <= effective_view (Toy.node_at 1 2) - 1
      < Z.of_nat (length (views (Toy.network_at 2)))) ->
   shouldDrop (Toy.network_at 2) 1 2 TimeoutMsg = Some true) ∧
  shouldDrop (Toy.network_at 1) 1 3 ProposeMsg
  = Some (bool_decide (ProposeMsg ∈ dropTypes (Toy.network_at 1))).
Proof.
  split.
  - refine (proj1 (shouldDrop_decision (Toy.network_at 2) 1 2 TimeoutMsg
                     (Toy.node_at 1 2) _ _)).
    + reflexivity.
    + by vm_compute.
  - refine (proj2 (proj2 (shouldDrop_decision (Toy.network_at 1) 1 3 ProposeMsg
              (Toy.node_at 1 1) _ _) (mkView 1 [{[1%N; 2%N]}; {[3%N]}]) _) _).
    + reflexivity.
    + by vm_compute.
    + reflexivity.
    + intros Hsome%some_partition_has_both_spec. by vm_compute in Hsome.
Defined.

(** *** The commit check *)

(** What a replica contributes to the count at index [i]. *)
Definition contribution (i : nat) (replica : list node) : option bytes :=
  match replica with
  | [r] => Hash <$> executedBlocks r !! i
  | _ => None
  end.

Lemma count_commit_contribution i acc replica :
  count_commit i acc replica =
  match contribution i replica with
  | Some h => (<[h := S (default O (acc.1 !! h))]> (acc.1), false)
  | None => acc
  end.
Proof.
  destruct replica as [|r [|]]; cbn; try done.
  by destruct (executedBlocks r !! i).
Qed.

Lemma foldl_count_commit i l cc nc :
  dom (foldl (count_commit i) (cc, nc) l).1
  = dom cc ∪ list_to_set (omap (contribution i) l) ∧
  (foldl (count_commit i) (cc, nc) l).2
  = nc && bool_decide (omap (contribution i) l = []).
Proof.
  revert cc nc. induction l as [|replica l IH]; intros cc nc; cbn [foldl omap].
  - split; [set_solver|]. by rewrite andb_true_r.
  - rewrite count_commit_contribution. cbn [list_omap].
    destruct (contribution i replica) as [h|]; [|apply IH]. cbn [fst].
    destruct (IH (<[h:=S (default 0%nat (cc !! h))]> cc) false) as [-> ->].
    rewrite dom_insert_L. split; [set_solver|]. by rewrite andb_false_r.
Qed.

(** The hashes counted at index [i]. *)
Definition hashes_at (n : Network) (i : nat) : gset bytes :=
  list_to_set (omap (contribution i) (snd <$> map_to_list (replicas n))).

Lemma elem_of_hashes_at n i h : h ∈ hashes_at n i <-> committed_at n i h.
Proof.
  unfold hashes_at, committed_at.
  rewrite elem_of_list_to_set, list_elem_of_omap. split.
  - intros (replica & Hin & Hc). apply list_elem_of_fmap in Hin as ([rid l] & -> & Hin).
    apply elem_of_map_to_list in Hin. cbn in Hc.
    destruct l as [|r [|]]; cbn in Hc; try done.
    destruct (executedBlocks r !! i) as [b|] eqn:Hb; [|done].
    injection Hc as <-. by exists rid, r, b.
  - intros (rid & r & b & Hr & Hb & <-). exists [r]. split.
    + apply list_elem_of_fmap. exists (rid, [r]). split; [done|].
      by apply elem_of_map_to_list.
    + cbn. by rewrite Hb.
Qed.

Lemma count_commits_hashes n i :
  size (count_commits n i).1 = size (hashes_at n i) ∧
  ((count_commits n i).2 = true <-> hashes_at n i = ∅).
Proof.
  unfold count_commits, hashes_at.
  destruct (foldl_count_commit i (snd <$> map_to_list (replicas n)) ∅ true)
    as [Hdom ->].
  rewrite <- size_dom, Hdom, dom_empty_L, union_empty_l_L. split; [done|].
  cbn. rewrite bool_decide_eq_true.
  destruct (omap _ _) as [|h l]; [done|]. cbn. split; [done|]. set_solver.
Qed.

(** One round of the loop decides between three cases. *)
Lemma count_commits_cases n i :
  ((count_commits n i).2 = true ∧ ∀ h, ¬ committed_at n i h) ∨
  ((count_commits n i).2 = false ∧ size (count_commits n i).1 = 1%nat ∧
   agree_at n i ∧ ∃ h, committed_at n i h) ∨
  ((count_commits n i).2 = false ∧ size (count_commits n i).1 ≠ 1%nat ∧
   conflict_at n i).
Proof.
  destruct (count_commits_hashes n i) as [-> Hnc].
  destruct ((count_commits n i).2).
  - left. split; [done|]. intros h Hh%elem_of_hashes_at.
    rewrite (proj1 Hnc eq_refl) in Hh. set_solver.
  - right. assert (hashes_at n i ≠ ∅) as Hne by (intros He; by apply Hnc in He).
    apply set_choose_L in Hne as [x Hx].
    destruct (decide (size (hashes_at n i) = 1%nat)) as [H1|H1].
    + left. split; [done|]. split; [done|]. split.
      * intros h1 h2 Hh1%elem_of_hashes_at Hh2%elem_of_hashes_at.
        exact (size_singleton_inv _ _ _ H1 Hh1 Hh2).
      * exists x. by apply elem_of_hashes_at.
    + right. split; [done|]. split; [done|].
      destruct (decide (set_Forall (fun y => y = x) (hashes_at n i))) as [Hall|Hsome].
      * exfalso. apply H1.
        assert (hashes_at n i = {[x]}) as ->; [|by rewrite size_singleton].
        apply set_eq. intros y. rewrite elem_of_singleton. split; [apply Hall|].
        by intros ->.
      * apply not_set_Forall_Exists in Hsome as (y & Hy & Hne); [|apply _].
        exists x, y. rewrite <- !elem_of_hashes_at. split; [done|]. split; [done|].
        cbn in Hne. by intros ->.
Qed.

Lemma committed_at_earlier n i j h :
  (i <= j)%nat -> committed_at n j h -> ∃ h', committed_at n i h'.
Proof.
  intros Hij (rid & r & b & Hr & Hb & _).
  apply lookup_lt_Some in Hb.
  destruct (lookup_lt_is_Some_2 (executedBlocks r) i) as [b' Hb']; [lia|].
  exists (Hash b'). by exists rid, r, b'.
Qed.

Lemma contribution_bound (l : list (list node)) :
  ∃ k, ∀ replica, replica ∈ l -> contribution k replica = None.
Proof.
  induction l as [|replica l [k IH]].
  - exists O. by intros ? ?%elem_of_nil.
  - destruct replica as [|r rest].
    { exists k. intros ? [->|Hin]%elem_of_cons; [done|by apply IH]. }
    exists (k `max` length (executedBlocks r))%nat.
    intros replica' Hin. destruct replica' as [|r' [|]]; try done. cbn.
    destruct (executedBlocks r' !! _) as [b|] eqn:Hb; [|done]. exfalso.
    apply lookup_lt_Some in Hb as Hlt.
    apply elem_of_cons in Hin as [[= -> _]|Hin]; [lia|].
    specialize (IH _ Hin). cbn in IH.
    destruct (lookup_lt_is_Some_2 (executedBlocks r') k) as [b' Hb']; [lia|].
    by rewrite Hb' in IH.
Qed.

Lemma commits_end n : ∃ k, ∀ h, ¬ committed_at n k h.
Proof.
  destruct (contribution_bound (snd <$> map_to_list (replicas n))) as [k Hk].
  exists k. intros h (rid & r & b & Hr & Hb & _).
  specialize (Hk [r]). cbn in Hk. rewrite Hb in Hk.
  assert (Some (Hash b) = None); [|done]. apply Hk.
  apply list_elem_of_fmap. exists (rid, [r]). split; [done|].
  by apply elem_of_map_to_list.
Qed.

Lemma checkCommits_from_spec fuel n i safe j :
  checkCommits_from fuel n i = Some (safe, j) ->
  (i <= j)%nat ∧
  (∀ t, (i <= t < j)%nat -> agree_at n t ∧ ∃ h, committed_at n t h) ∧
  (if safe then ∀ h, ¬ committed_at n j h else conflict_at n j).
Proof.
  revert i. induction fuel as [|fuel IH]; intros i; cbn; [done|].
  destruct (count_commits_cases n i) as [(Hnc & Hnone)|[(Hnc & Hsz & Hag & Hex)|(Hnc & Hsz & Hcf)]];
    destruct (count_commits n i) as [cc nc]; cbn in *; subst nc.
  - intros [= <- <-]. split; [lia|]. split; [intros; lia|done].
  - rewrite decide_False by (intros Hne; by apply Hne).
    intros Hrec. apply IH in Hrec as (Hle & Hmid & Hend).
    split; [lia|]. split; [|done]. intros t Ht.
    destruct (decide (t = i)) as [->|]; [done|]. apply Hmid. lia.
  - rewrite decide_True by done. intros [= <- <-].
    split; [lia|]. split; [intros; lia|done].
Qed.

Lemma checkCommits_from_terminates n k i :
  (∀ h, ¬ committed_at n (i + k) h) ->
  ∃ r, checkCommits_from (S k) n i = Some r.
Proof.
  revert i. induction k as [|k IH]; intros i Hend; cbn [checkCommits_from].
  - destruct (count_commits_cases n i) as [(Hnc & Hnone)|[(Hnc & Hsz & Hag & Hex)|(Hnc & Hsz & Hcf)]];
      destruct (count_commits n i) as [cc nc]; cbn in *; subst nc.
    + by eexists.
    + destruct Hex as [h Hh]. rewrite Nat.add_0_r in Hend. by apply Hend in Hh.
    + rewrite decide_True by done. by eexists.
  - destruct (count_commits_cases n i) as [(Hnc & Hnone)|[(Hnc & Hsz & Hag & Hex)|(Hnc & Hsz & Hcf)]];
      destruct (count_commits n i) as [cc nc]; cbn in *; subst nc.
    + by eexists.
    + rewrite decide_False by (intros Hne; by apply Hne).
      apply IH. by replace (S i + k)%nat with (i + S k)%nat by lia.
    + rewrite decide_True by done. by eexists.
Qed.

Lemma checkCommits_from_fuel fuel fuel' n i r r' :
  checkCommits_from fuel n i = Some r ->
  checkCommits_from fuel' n i = Some r' -> r = r'.
Proof.
  revert fuel' i. induction fuel as [|fuel IH]; intros [|fuel'] i; cbn; try done.
  destruct (count_commits n i) as [cc [|]]; [congruence|].
  case_decide; [congruence|]. apply IH.
Qed.

(** C3. [checkCommits] returns, and it returns [Safe = true] exactly when at
    every index the hashes executed by the replicas without a twin that got
    that far are all the same; the first index with two distinct hashes [i]
    makes the result [(false, i)]. *)
Theorem checkCommits_spec (n : Network) :
  ∃ fuel safe commits,
    checkCommits fuel n = Some (safe, commits) ∧
    (∀ fuel' r, checkCommits fuel' n = Some r -> r = (safe, commits)) ∧
    (safe = true <-> ∀ i, agree_at n i) ∧
    (∀ i, conflict_at n i -> (∀ t, (t < i)%nat -> agree_at n t) ->
          (safe, commits) = (false, i)).
Proof.
  destruct (commits_end n) as [k Hk].
  destruct (checkCommits_from_terminates n k O Hk) as [[safe j] Hrun].
  exists (S k), safe, j. split; [done|].
  split; [intros fuel' r Hr; by eapply checkCommits_from_fuel|].
  apply checkCommits_from_spec in Hrun as (_ & Hmid & Hend).
  assert (∀ i, conflict_at n i -> ¬ agree_at n i) as Hcontra.
  { intros i (h1 & h2 & H1 & H2 & Hne) Hag. by apply Hne, Hag. }
  split; [split|].
  - intros -> i h1 h2 H1 H2. destruct (decide (i < j)%nat) as [Hlt|Hge].
    + destruct (Hmid i) as [Hag _]; [lia|]. by apply Hag.
    + destruct (committed_at_earlier n j i h1) as [h Hh]; [lia|done|].
      by apply Hend in Hh.
  - intros Hall. destruct safe; [done|]. exfalso. by eapply Hcontra.
  - intros i Hcf Hbefore. destruct safe.
    + exfalso. apply (Hcontra i Hcf). intros h1 h2 H1 H2.
      destruct (decide (i < j)%nat) as [Hlt|Hge].
      * destruct (Hmid i) as [Hag _]; [lia|]. by apply Hag.
      * destruct (committed_at_earlier n j i h1) as [h Hh]; [lia|done|].
        by apply Hend in Hh.
    + f_equal. destruct (Nat.lt_trichotomy i j) as [Hlt|[->|Hgt]]; [|done|].
      * exfalso. apply (Hcontra i Hcf). apply Hmid. lia.
      * exfalso. apply (Hcontra j Hend). by apply Hbefore.
Qed.

End TwinsClaims.

(** ** More about the cache *)
Module CacheExtras.
Import Cache CacheLRU CacheOps.

Section Extras.
Context {Sig Impl : Type} `{CB : CryptoBase Sig Impl}.
Variable sha256_Sum256 : bytes -> bytes.
Implicit Types c : cache Sig Impl.

#[local] Abbreviation Sign := (Sign sha256_Sum256).
#[local] Abbreviation Verify := (Verify sha256_Sum256).
#[local] Abbreviation BatchVerify := (BatchVerify sha256_Sum256).
#[local] Abbreviation Verify_key := (Verify_key sha256_Sum256).
#[local] Abbreviation BatchVerify_key := (BatchVerify_key sha256_Sum256).
#[local] Abbreviation run := (run sha256_Sum256).

Lemma reachable (i : Impl) cap ops c :
  run ops (NewCache i cap) = Some (tt, c) ->
  good sha256_Sum256 c ∧ capacity c = cap.
Proof.
  intros Hrun. eapply run_good in Hrun; [done|]. apply NewCache_good.
Qed.

(** X1. The map and the list of the cache describe the same keys: in every
    state the operations reach, the access order lists each key once and
    [entries] holds exactly the keys of the list. *)
Theorem cache_list_matches_map (i : Impl) cap ops c :
  run ops (NewCache i cap) = Some (tt, c) ->
  NoDup (accessOrder c) ∧
  (∀ k, k ∈ entries c <-> k ∈ accessOrder c) ∧
  size (entries c) = length (accessOrder c).
Proof.
  intros Hrun. apply reachable in Hrun as [[Hwf _ _ _] _].
  split; [apply Hwf|]. split; [apply Hwf|]. by apply wf_size.
Qed.

(** X2. Nothing enters the cache but on success: every key in the cache is
    the key of a signature the primitive's [Sign] returned for that message,
    of a pair its [Verify] accepts, or of a signature and a batch its
    [BatchVerify] accepts. *)
Theorem cached_keys_come_from_successes (i : Impl) cap ops c k :
  run ops (NewCache i cap) = Some (tt, c) ->
  k ∈ entries c ->
  (∃ s m, k = Verify_key s m ∧
          ((∃ st, (impl_Sign st m).1 = Some s) ∨ impl_Verify s m = true)) ∨
  (∃ s b, k = BatchVerify_key s b ∧ impl_BatchVerify s b = true).
Proof.
  intros Hrun Hin. apply reachable in Hrun as [[_ _ Hkeys Hlog] _].
  destruct (Hkeys k Hin) as (ev & Hev & Hkey).
  rewrite Forall_forall in Hlog. specialize (Hlog _ Hev).
  destruct ev as [m [s|]|s m [|]|s b [|]]; cbn in Hkey, Hlog; try done;
    injection Hkey as <-.
  - left. exists s, m. split; [done|]. by left.
  - left. exists s, m. split; [done|]. by right.
  - right. by exists s, b.
Qed.

(** X3. A rejection is not remembered: when the key is not cached and the
    primitive rejects the pair, [Verify] answers [false] and leaves the keys
    and their order alone, so a second [Verify] of the same pair asks the
    primitive again. *)
Theorem Verify_rejection_not_cached c s m :
  Verify_key s m ∉ entries c ->
  impl_Verify s m = false ->
  ∃ c1 c2,
    Verify s m c = Some (false, c1) ∧
    Verify s m c1 = Some (false, c2) ∧
    entries c2 = entries c ∧ accessOrder c2 = accessOrder c ∧
    calls c2 = calls c ++ [CallVerify s m false; CallVerify s m false].
Proof.
  intros Hnin Hrej.
  exists (log (CallVerify s m false) c),
         (log (CallVerify s m false) (log (CallVerify s m false) c)).
  rewrite !Verify_unfold. unfold lookup_or. rewrite Hrej.
  rewrite !decide_False by done.
  split; [done|]. split; [done|]. split; [done|]. split; [done|].
  cbn. by rewrite <- app_assoc.
Qed.

(** X4. A cache without room panics as soon as it has something to keep: with
    a capacity of zero or less, a [Sign] for which the primitive returns a
    signature panics, and so does a [Verify] the primitive accepts. *)
Theorem no_capacity_panics (i : Impl) cap ops c :
  cap <= 0 ->
  run ops (NewCache i cap) = Some (tt, c) ->
  (∀ m sig, (impl_Sign (impl c) m).1 = Some sig -> Sign m c = None) ∧
  (∀ s m, impl_Verify s m = true -> Verify s m c = None).
Proof.
  intros Hcap Hrun. apply reachable in Hrun as [[Hwf Hb _ _] Hc].
  assert (entries c = ∅) as Hempty.
  { pose proof (wf_size c Hwf) as Hsz. unfold bounded in Hb.
    apply leibniz_equiv, size_empty_iff. lia. }
  split.
  - intros m sig Hsig. rewrite Sign_unfold. cbn zeta. rewrite Hsig.
    rewrite insert_no_capacity; [done| | |cbn; lia].
    + by destruct Hwf.
    + done.
  - intros s m Hacc. rewrite Verify_unfold. unfold lookup_or.
    rewrite decide_False by (rewrite Hempty; set_solver). rewrite Hacc.
    rewrite insert_no_capacity; [done| | |cbn; lia].
    + by destruct Hwf.
    + done.
Qed.

(** X5. A hit protects a key: in a cache of capacity two or more, the key that
    was just looked up survives the insert of another key that follows. *)
Theorem hit_survives_next_insert (i : Impl) cap ops c key c1 other c2 :
  2 <= cap ->
  run ops (NewCache i cap) = Some (tt, c) ->
  check key c = Some (true, c1) ->
  insert other c1 = Some (tt, c2) ->
  key ∈ entries c2.
Proof.
  intros Hcap Hrun Hchk Hins. apply reachable in Hrun as [[Hwf Hb _ _] Hc].
  revert Hchk. rewrite check_unfold. case_decide as Hin; [|done]. intros [= <-].
  pose proof (MoveToFront_wf c key Hwf Hin) as Hwf1.
  assert (bounded (set_order (list_MoveToFront key) c)) as Hb1.
  { unfold bounded, set_order in *. cbn [accessOrder capacity].
    by rewrite MoveToFront_length. }
  destruct (insert_spec _ other Hwf1 Hb1) as (c2' & Hins' & _ & Hwf2 & _ & Hord);
    [cbn; lia|].
  rewrite Hins in Hins'. injection Hins' as <-.
  apply (wf_entries _ Hwf2). rewrite Hord. cbn [capacity set_order accessOrder].
  replace (Z.to_nat (capacity c)) with (S (S (Z.to_nat (capacity c - 2)))) by lia.
  unfold list_MoveToFront at 1. cbn [take].
  destruct (decide (other = key)) as [->|Hne]; [by left|]. right.
  unfold list_MoveToFront. cbn [list_Remove].
  rewrite decide_False by done. cbn [take]. by left.
Qed.

(** What [Verify] and [BatchVerify] share: an accepted miss is a hit the next
    time. *)
Lemma lookup_or_memoizes c key ev :
  wf c -> bounded c -> 1 <= capacity c ->
  ∃ c1 c2, lookup_or key ev true c = Some (true, c1) ∧
           lookup_or key ev true c1 = Some (true, c2) ∧
           calls c2 = calls c1 ∧
           (calls c1 = calls c ∨ calls c1 = calls c ++ [ev true]).
Proof.
  intros Hwf Hb Hcap. unfold lookup_or at 1. case_decide as Hin.
  - eexists _, _. split; [done|]. unfold lookup_or.
    rewrite decide_True by done. split; [done|]. split; [done|]. by left.
  - destruct (insert_spec (log (ev true) c) key) as (c1 & Hins & Hfr & Hwf1 & Hb1 & Hord);
      [by destruct Hwf|done|done|].
    rewrite Hins. exists c1. eexists. split; [done|].
    assert (key ∈ entries c1) as Hin1.
    { eapply insert_Some in Hins as (_ & _ & _ & ?); [done|by destruct Hwf|done]. }
    unfold lookup_or. rewrite decide_True by done.
    split; [done|]. split; [done|]. right. by destruct Hfr as (_ & _ & ->).
Qed.

(** X6. Accepted verifications are memoized: after a [Verify] of a pair the
    primitive accepts, the same [Verify] again answers [true] without a call
    to the primitive, and the first one made at most one call. *)
Theorem Verify_memoizes (i : Impl) cap ops c s m :
  1 <= cap ->
  run ops (NewCache i cap) = Some (tt, c) ->
  impl_Verify s m = true ->
  ∃ c1 c2, Verify s m c = Some (true, c1) ∧
           Verify s m c1 = Some (true, c2) ∧
           calls c2 = calls c1 ∧
           (calls c1 = calls c ∨ calls c1 = calls c ++ [CallVerify s m true]).
Proof.
  intros Hcap Hrun Hacc. apply reachable in Hrun as [[Hwf Hb _ _] Hc].
  destruct (lookup_or_memoizes c (Verify_key s m) (CallVerify s m) Hwf Hb)
    as (c1 & c2 & H1 & H2 & H3 & H4); [lia|].
  exists c1, c2. rewrite !Verify_unfold, Hacc. done.
Qed.

(** X7. The same for batches: after a [BatchVerify] the primitive accepts, the
    same call again answers [true] without reaching the primitive. *)
Theorem BatchVerify_memoizes (i : Impl) cap ops c s batch :
  1 <= cap ->
  run ops (NewCache i cap) = Some (tt, c) ->
  impl_BatchVerify s batch = true ->
  ∃ c1 c2, BatchVerify s batch c = Some (true, c1) ∧
           BatchVerify s batch c1 = Some (true, c2) ∧
           calls c2 = calls c1 ∧
           (calls c1 = calls c ∨
            calls c1 = calls c ++ [CallBatchVerify s batch true]).
Proof.
  intros Hcap Hrun Hacc. apply reachable in Hrun as [[Hwf Hb _ _] Hc].
  destruct (lookup_or_memoizes c (BatchVerify_key s batch) (CallBatchVerify s batch)
              Hwf Hb) as (c1 & c2 & H1 & H2 & H3 & H4); [lia|].
  exists c1, c2. rewrite !BatchVerify_unfold, Hacc. done.
Qed.

(** X8. The key [BatchVerify] computes ignores the batch: it is 32 zero bytes
    followed by the bytes of the signature, so all batches checked under one
    signature share one key. *)
Theorem BatchVerify_key_ignores_batch signature batch1 batch2 :
  BatchVerify_key signature batch1 = zero_Hash ++ ToBytes signature ∧
  BatchVerify_key signature batch1 = BatchVerify_key signature batch2.
Proof.
  assert (∀ b, BatchVerify_key signature b = zero_Hash ++ ToBytes signature) as Hk.
  { intros b. unfold Cache.BatchVerify_key, hasher_Sum, slice_append.
    case_decide as Hfit; [|done].
    destruct (sha256_Sum256 _) as [|x xs]; [done|]. cbn in Hfit. lia. }
  by rewrite !Hk.
Qed.

End Extras.

Lemma cached_keys_come_from_successes_witness :
  (∃ s m, Verify_key Toy.digest (Toy.sign Toy.b) Toy.b = Verify_key Toy.digest s m ∧
          ((∃ st, (impl_Sign st m).1 = Some s) ∨ impl_Verify s m = true)) ∨
  (∃ s b, Verify_key Toy.digest (Toy.sign Toy.b) Toy.b = BatchVerify_key Toy.digest s b ∧
          impl_BatchVerify s b = true).
Proof.
  apply (cached_keys_come_from_successes Toy.digest tt 2 Toy.history
           (Toy.after (run Toy.digest Toy.history) (NewCache tt 2))).
  - vm_compute. reflexivity.
  - apply (bool_decide_unpack _). by vm_compute.
Defined.

Lemma Verify_rejection_not_cached_witness :
  ∃ c1 c2,
    Verify Toy.digest (Toy.sign Toy.a) Toy.b (NewCache tt 2) = Some (false, c1) ∧
    Verify Toy.digest (Toy.sign Toy.a) Toy.b c1 = Some (false, c2) ∧
    entries c2 = entries (NewCache (Sig:=bytes) tt 2) ∧
    accessOrder c2 = accessOrder (NewCache (Sig:=bytes) tt 2) ∧
    calls c2 = calls (NewCache tt 2)
               ++ [CallVerify (Toy.sign Toy.a) Toy.b false;
                   CallVerify (Toy.sign Toy.a) Toy.b false].
Proof.
  apply (Verify_rejection_not_cached Toy.digest (NewCache tt 2)).
  - cbn. set_solver.
  - reflexivity.
Defined.

Lemma no_capacity_panics_witness :
  (∀ m sig, (impl_Sign (impl (NewCache (Sig:=bytes) tt 0)) m).1 = Some sig ->
            Sign Toy.digest m (NewCache tt 0) = None) ∧
  (∀ s m, impl_Verify s m = true -> Verify Toy.digest s m (NewCache tt 0) = None).
Proof.
  apply (no_capacity_panics Toy.digest tt 0 []).
  - lia.
  - reflexivity.
Defined.

Lemma hit_survives_next_insert_witness :
  Verify_key Toy.digest (Toy.sign Toy.a) Toy.a
  ∈ entries
      (Toy.after (insert Toy.c)
         (Toy.after (check (Verify_key Toy.digest (Toy.sign Toy.a) Toy.a))
            (Toy.after (run Toy.digest [OpSign Toy.a; OpSign Toy.b]) (NewCache tt 2)))).
Proof.
  apply (hit_survives_next_insert Toy.digest tt 2 [OpSign Toy.a; OpSign Toy.b]
           (Toy.after (run Toy.digest [OpSign Toy.a; OpSign Toy.b]) (NewCache tt 2))
           (Verify_key Toy.digest (Toy.sign Toy.a) Toy.a)
           (Toy.after (check (Verify_key Toy.digest (Toy.sign Toy.a) Toy.a))
              (Toy.after (run Toy.digest [OpSign Toy.a; OpSign Toy.b]) (NewCache tt 2)))
           Toy.c).
  - lia.
  - vm_compute. reflexivity.
  - vm_compute. reflexivity.
  - vm_compute. reflexivity.
Defined.

Lemma Verify_memoizes_witness :
  ∃ c1 c2, Verify Toy.digest (Toy.sign Toy.a) Toy.a (NewCache tt 2) = Some (true, c1) ∧
           Verify Toy.digest (Toy.sign Toy.a) Toy.a c1 = Some (true, c2) ∧
           calls c2 = calls c1 ∧
           (calls c1 = calls (NewCache tt 2) ∨
            calls c1 = calls (NewCache tt 2)
                       ++ [CallVerify (Toy.sign Toy.a) Toy.a true]).
Proof.
  apply (Verify_memoizes Toy.digest tt 2 []).
  - lia.
  - reflexivity.
  - reflexivity.
Defined.

Lemma BatchVerify_memoizes_witness :
  ∃ c1 c2,
    BatchVerify Toy.digest (Toy.sign Toy.a) {[1%N := Toy.a]} (NewCache tt 2)
    = Some (true, c1) ∧
    BatchVerify Toy.digest (Toy.sign Toy.a) {[1%N := Toy.a]} c1 = Some (true, c2) ∧
    calls c2 = calls c1 ∧
    (calls c1 = calls (NewCache tt 2) ∨
     calls c1 = calls (NewCache tt 2)
                ++ [CallBatchVerify (Toy.sign Toy.a) {[1%N := Toy.a]} true]).
Proof.
  apply (BatchVerify_memoizes Toy.digest tt 2 []).
  - lia.
  - reflexivity.
  - by vm_compute.
Defined.

Lemma cache_list_matches_map_witness :
  NoDup (accessOrder (Toy.after (run Toy.digest Toy.history) (NewCache tt 2))).
Proof.
  refine (proj1 (cache_list_matches_map Toy.digest tt 2 Toy.history _ _)).
  vm_compute. reflexivity.
Defined.

End CacheExtras.

(** ** More about the carousel *)
Module CarouselExtras.
Import Consensus Carousel CarouselClaims.

Section Extras.
Context {R : Type} `{RS : Rand R}.
Variable GetGenesis : Block.
Variable chooseRoundRobin : Z -> Z -> N.
Implicit Types (c : carousel R) (m : Modules).

#[local] Abbreviation lastAuthors_of := (lastAuthors_of GetGenesis).
#[local] Abbreviation candidates_of := (candidates_of GetGenesis).
#[local] Abbreviation GetLeader := (GetLeader GetGenesis chooseRoundRobin).

(** X9. On the carousel path [GetLeader] panics exactly when no candidate is
    left, that is when every participant of the commit head's certificate is
    among the last authors; otherwise it returns one of the candidates. *)
Theorem GetLeader_panics_iff_no_candidate c round sig :
  Signature (cert (CommittedBlock (mods c))) = Some sig ->
  View (CommittedBlock (mods c)) = View_sub round (ChainLength (mods c)) ->
  0 <= Configuration_Len (mods c) ->
  (GetLeader c round = None <->
   ∀ p, p ∈ Participants sig -> p ∈ lastAuthors_of (mods c)) ∧
  (∀ leader c', GetLeader c round = Some (leader, c') ->
                leader ∈ candidates_of (mods c) sig).
Proof.
  intros Hsig Hview Hn.
  assert (0 <= Configuration_Len (mods c) - NumFaulty (Configuration_Len (mods c)))
    as Hcap.
  { unfold NumFaulty. pose proof (Z.mul_div_le (Configuration_Len (mods c) - 1) 3). lia. }
  assert (candidates_of (mods c) sig = [] <->
          ∀ p, p ∈ Participants sig -> p ∈ lastAuthors_of (mods c)) as Hnil.
  { unfold Carousel.candidates_of. split.
    - intros Hf p Hp. destruct (decide (p ∈ lastAuthors_of (mods c))) as [|Hnot]; [done|].
      assert (p ∈ filter (fun i => i ∉ lastAuthors_of (mods c)) (Participants sig)) as Hin
        by (apply list_elem_of_filter; by split).
      rewrite Hf in Hin. by apply elem_of_nil in Hin.
    - intros Hall. destruct (filter _ _) as [|p l] eqn:Hf; [done|].
      assert (p ∈ filter (fun i => i ∉ lastAuthors_of (mods c)) (Participants sig)) as Hin
        by (rewrite Hf; by left).
      apply list_elem_of_filter in Hin as [Hnot Hp]. by apply Hall in Hp. }
  destruct (decide (candidates_of (mods c) sig = [])) as [Hempty|Hne].
  - assert (GetLeader c round = None) as Hpanic.
    { unfold Carousel.GetLeader. rewrite Hsig.
      rewrite decide_False by (intros Hv; by apply Hv).
      rewrite decide_False by lia.
      fold (candidates_of (mods c) sig). rewrite Hempty.
      by destruct (rand_Int (rnd c)). }
    split; [|by rewrite Hpanic]. split; [intros _; by apply Hnil|done].
  - destruct (GetLeader_carousel GetGenesis chooseRoundRobin c round sig
                Hsig Hview Hcap Hne) as (_ & leader & Hl & Hget).
    split.
    + split; [by rewrite Hget|]. intros Hall. by apply Hnil in Hall.
    + intros leader' c' Hget'. rewrite Hget in Hget'. injection Hget' as <- _.
      by eapply list_elem_of_lookup_2.
Qed.

End Extras.

Lemma GetLeader_panics_iff_no_candidate_witness :
  GetLeader Toy.genesis Toy.round_robin (Toy.replica_state 4 [1%N]) 5 = None <->
  ∀ p, p ∈ [1%N] ->
       p ∈ lastAuthors_of Toy.genesis (mods (Toy.replica_state 4 [1%N])).
Proof.
  refine (proj1 (GetLeader_panics_iff_no_candidate Toy.genesis Toy.round_robin
                   (Toy.replica_state 4 [1%N]) 5 (mkQuorumSignature [1%N]) _ _ _)).
  - reflexivity.
  - reflexivity.
  - by vm_compute.
Defined.

End CarouselExtras.

(** ** More about the twins simulator *)
Module TwinsExtras.
Import Consensus Twins TwinsNet TwinsClaims.

(** *** The commit check *)

Lemma checkCommits_from_ext n1 n2 :
  (∀ i h, committed_at n1 i h <-> committed_at n2 i h) ->
  ∀ fuel i, checkCommits_from fuel n1 i = checkCommits_from fuel n2 i.
Proof.
  intros Hsame fuel. induction fuel as [|fuel IH]; intros i; cbn; [done|].
  assert (hashes_at n1 i = hashes_at n2 i) as Hh.
  { apply set_eq. intros h. by rewrite !elem_of_hashes_at. }
  destruct (count_commits_hashes n1 i) as [Hs1 Hn1].
  destruct (count_commits_hashes n2 i) as [Hs2 Hn2].
  destruct (count_commits n1 i) as [cc1 nc1], (count_commits n2 i) as [cc2 nc2].
  cbn in *. rewrite Hh in Hs1, Hn1.
  assert (nc1 = nc2) as ->.
  { destruct nc1, nc2; try done.
    - assert (false = true); [|done]. by apply Hn2, Hn1.
    - assert (false = true); [|done]. by apply Hn1, Hn2. }
  destruct nc2; [done|]. rewrite Hs1, <- Hs2.
  case_decide; [done|]. apply IH.
Qed.

(** X10. Replicas with a twin do not count: replacing the nodes of a replica
    id that does not have exactly one node by any other list that does not
    have exactly one node leaves the result of [checkCommits] as it was. *)
Theorem checkCommits_skips_twins fuel n rid l l' :
  replicas n !! rid = Some l ->
  length l ≠ 1%nat ->
  length l' ≠ 1%nat ->
  checkCommits fuel
    (mkNetwork (nodes n) (<[rid := l']> (replicas n)) (views n) (dropTypes n))
  = checkCommits fuel n.
Proof.
  intros Hl Hlen Hlen'. apply checkCommits_from_ext. intros i h.
  unfold committed_at. cbn. split.
  - intros (rid0 & r & b & Hr & Hb & Hh). exists rid0, r, b.
    split; [|done]. destruct (decide (rid0 = rid)) as [->|Hne].
    + rewrite lookup_insert_eq in Hr. injection Hr as ->. done.
    + by rewrite lookup_insert_ne in Hr.
  - intros (rid0 & r & b & Hr & Hb & Hh). exists rid0, r, b.
    split; [|done]. destruct (decide (rid0 = rid)) as [->|Hne].
    + rewrite Hl in Hr. injection Hr as ->. done.
    + by rewrite lookup_insert_ne.
Qed.

(** X11. When the check answers [Safe = true], [Commits] is the length of the
    longest chain a replica without a twin has executed: no such replica has
    executed more blocks and, unless [Commits] is zero, one has executed
    exactly that many. *)
Theorem checkCommits_counts_longest fuel n commits :
  checkCommits fuel n = Some (true, commits) ->
  (∀ rid r, replicas n !! rid = Some [r] ->
            (length (executedBlocks r) <= commits)%nat) ∧
  ((0 < commits)%nat ->
   ∃ rid r, replicas n !! rid = Some [r] ∧ length (executedBlocks r) = commits).
Proof.
  intros Hrun. apply checkCommits_from_spec in Hrun as (_ & Hmid & Hend).
  assert (∀ rid r, replicas n !! rid = Some [r] ->
                   (length (executedBlocks r) <= commits)%nat) as Hle.
  { intros rid r Hr.
    destruct (decide (length (executedBlocks r) <= commits)%nat) as [|Hgt]; [done|].
    destruct (lookup_lt_is_Some_2 (executedBlocks r) commits) as [b Hb]; [lia|].
    exfalso. apply (Hend (Hash b)). by exists rid, r, b. }
  split; [done|]. intros Hpos.
  destruct (Hmid (commits - 1)%nat) as [_ (h & rid & r & b & Hr & Hb & _)]; [lia|].
  exists rid, r. split; [done|]. apply lookup_lt_Some in Hb.
  specialize (Hle rid r Hr). lia.
Qed.

(** *** The drop decision and the timeout manager *)

Lemma shouldDrop_known_sender n sender receiver msg nd :
  nodes n !! sender = Some nd -> is_Some (shouldDrop n sender receiver msg).
Proof.
  intros Hnd. unfold shouldDrop. rewrite Hnd. cbn zeta.
  set (i := if decide (effectiveView nd > Synchronizer_View nd) then _ else _).
  clearbody i.
  destruct (decide (i < 0)); [done|].
  destruct (decide (i >= Z.of_nat (length (views n)))); [done|].
  destruct (lookup_lt_is_Some_2 (views n) (Z.to_nat i)) as [v ->]; [lia|].
  by destruct (some_partition_has_both _ _ _).
Qed.

(** X12. [shouldDrop] panics exactly when the sender is not a node of the
    network; for a known sender it always decides. *)
Theorem shouldDrop_panics_iff_unknown_sender n sender receiver msg :
  shouldDrop n sender receiver msg = None <-> nodes n !! sender = None.
Proof.
  split.
  - intros Hpanic. destruct (nodes n !! sender) as [nd|] eqn:Hnd; [|done].
    destruct (shouldDrop_known_sender n sender receiver msg nd Hnd) as [b Hb].
    congruence.
  - intros Hnone. unfold shouldDrop. by rewrite Hnone.
Qed.

Lemma advance_quiet tm nd :
  wrap_int (countdown tm - 1) ≠ 0 ->
  advance tm nd = (mkTimeoutManager (wrap_int (countdown tm - 1)) (timeout tm), nd, None).
Proof. intros Hne. unfold advance. by rewrite decide_False. Qed.

Lemma advance_fires tm nd :
  wrap_int (countdown tm - 1) = 0 ->
  advance tm nd =
  (mkTimeoutManager (timeout tm) (timeout tm),
   (if decide (effectiveView nd <= Synchronizer_View nd)
    then mkNode (id nd) (Synchronizer_View nd) (executedBlocks nd)
           ((Synchronizer_View nd + 1) mod 2 ^ 64)
    else nd),
   Some (Synchronizer_View nd)).
Proof. intros He. unfold advance. by rewrite decide_True. Qed.

Lemma advance_n_countdown k tm nd :
  (1 <= k)%nat -> countdown tm = Z.of_nat k -> Z.of_nat k < 2 ^ 63 ->
  advance_n k tm nd =
  (mkTimeoutManager (timeout tm) (timeout tm),
   (if decide (effectiveView nd <= Synchronizer_View nd)
    then mkNode (id nd) (Synchronizer_View nd) (executedBlocks nd)
           ((Synchronizer_View nd + 1) mod 2 ^ 64)
    else nd),
   [Synchronizer_View nd]).
Proof.
  revert tm. induction k as [|k IH]; intros tm Hk Hc Hb; [lia|].
  cbn [advance_n]. destruct k as [|k].
  - rewrite advance_fires by (rewrite Hc; done). done.
  - rewrite advance_quiet by (rewrite Hc, wrap_int_small; lia).
    rewrite IH; [done|lia| |lia]. cbn. rewrite Hc, wrap_int_small; lia.
Qed.

Lemma advance_n_before k tm nd :
  Z.of_nat k < countdown tm -> countdown tm < 2 ^ 63 ->
  advance_n k tm nd = (mkTimeoutManager (countdown tm - Z.of_nat k) (timeout tm), nd, []).
Proof.
  revert tm. induction k as [|k IH]; intros tm Hk Hb; cbn [advance_n].
  - destruct tm. cbn. by rewrite Z.sub_0_r.
  - rewrite advance_quiet by (rewrite wrap_int_small; lia).
    rewrite IH; cbn; rewrite ?wrap_int_small; try lia.
    do 2 f_equal. f_equal. lia.
Qed.

(** X13. After a view change the manager fires once every [timeout] ticks:
    fewer ticks queue no timeout and leave the node alone; the [timeout]-th
    tick queues one timeout event for the current view, rearms the countdown
    and moves the node's effective view past that view if it was not
    already. *)
Theorem timeout_fires_every_timeout_ticks tm nd :
  1 <= timeout tm < 2 ^ 63 ->
  (∀ k, Z.of_nat k < timeout tm ->
        advance_n k (viewChange tm) nd
        = (mkTimeoutManager (timeout tm - Z.of_nat k) (timeout tm), nd, [])) ∧
  advance_n (Z.to_nat (timeout tm)) (viewChange tm) nd =
  (viewChange tm,
   (if decide (effectiveView nd <= Synchronizer_View nd)
    then mkNode (id nd) (Synchronizer_View nd) (executedBlocks nd)
           ((Synchronizer_View nd + 1) mod 2 ^ 64)
    else nd),
   [Synchronizer_View nd]).
Proof.
  intros Ht. split.
  - intros k Hk. rewrite advance_n_before; cbn; [done|lia|lia].
  - rewrite advance_n_countdown; cbn; [done|lia|lia|lia].
Qed.

(** X14. A countdown at or below zero does not fire before it wraps around:
    a manager whose countdown is not positive (as when it was just created)
    queues no timeout and leaves its node alone during its first
    [2^63 + countdown] ticks, the span in which the [int] countdown stays in
    range; within it only a view change arms the manager. *)
Theorem unarmed_manager_never_fires k tm nd :
  countdown tm <= 0 ->
  - 2 ^ 63 <= countdown tm - Z.of_nat k ->
  advance_n k tm nd
  = (mkTimeoutManager (countdown tm - Z.of_nat k) (timeout tm), nd, []).
Proof.
  revert tm. induction k as [|k IH]; intros tm Hc Hb; cbn [advance_n].
  - destruct tm. cbn. by rewrite Z.sub_0_r.
  - rewrite advance_quiet by (rewrite wrap_int_small; lia).
    rewrite IH; cbn; rewrite ?wrap_int_small; try lia.
    do 2 f_equal. f_equal. lia.
Qed.

(** X15. A node that timed out in a view at or past the end of the view plan
    is cut off: every message it sends afterwards is dropped. *)
Theorem timed_out_past_plan_drops tm nd tm' nd' v n sender receiver msg :
  advance tm nd = (tm', nd', Some v) ->
  0 <= Synchronizer_View nd -> Synchronizer_View nd + 1 < 2 ^ 63 ->
  effectiveView nd < 2 ^ 63 ->
  nodes n !! sender = Some nd' ->
  Z.of_nat (length (views n)) <= v ->
  shouldDrop n sender receiver msg = Some true.
Proof.
  unfold advance. case_decide as Hz; [|done]. intros [= <- <- <-] Hv0 Hv1 He Hnd Hlen.
  unfold shouldDrop. rewrite Hnd. rewrite shouldDrop_index.
  - unfold effective_view. case_decide; cbn.
    + rewrite Z.mod_small by lia. rewrite decide_False by lia.
      by rewrite decide_True by lia.
    + rewrite decide_False by lia. by rewrite decide_True by lia.
  - unfold effective_view. case_decide; cbn; [rewrite Z.mod_small by lia|]; lia.
Qed.

(** *** Sending *)

(** What a send to the nodes [nds] adds to the queue. *)
Definition deliveries (n : Network) (c : configuration) (msg : MsgType)
    (nds : list node) : list pendingMessage :=
  omap (fun nd =>
          match cfg_shouldDrop n c (id nd) msg with
          | Some false => Some (mkPendingMessage msg (NetworkID (id nd)))
          | _ => None
          end) nds.

Lemma sendMessage_deliveries n c sender rid nds msg pending :
  nodes n !! NetworkID (id (cfg_node c)) = Some sender ->
  replicas n !! rid = Some nds ->
  sendMessage n c rid msg pending = Some (pending ++ deliveries n c msg nds).
Proof.
  intros Hs Hr. unfold sendMessage. rewrite Hr. clear Hr. revert pending.
  induction nds as [|nd nds IH]; intros pending; cbn [foldl].
  - by rewrite app_nil_r.
  - unfold deliveries. cbn [omap list_omap].
    destruct (cfg_shouldDrop n c (id nd) msg) as [[|]|] eqn:Hd.
    + apply IH.
    + rewrite IH. by rewrite <- app_assoc.
    + exfalso.
      destruct (shouldDrop_known_sender n (NetworkID (id (cfg_node c)))
                  (NetworkID (id nd)) msg sender Hs) as [b Hb].
      unfold cfg_shouldDrop in Hd. congruence.
Qed.

(** The replicas a broadcast goes to. *)
Definition addressed (c : configuration) (rid : N) : Prop :=
  rid ≠ ReplicaID (id (cfg_node c)) ∧ ∀ sub, subConfig c = Some sub -> rid ∈ sub.

Lemma broadcast_fold n c sender msg (l : list (N * list node)) pending :
  nodes n !! NetworkID (id (cfg_node c)) = Some sender ->
  (∀ rid nds, (rid, nds) ∈ l -> replicas n !! rid = Some nds) ->
  ∃ new,
    foldl (fun acc '(rid, _) =>
             match acc with
             | None => None
             | Some p =>
                 if decide (rid = ReplicaID (id (cfg_node c))) then Some p
                 else
                   match subConfig c with
                   | None => sendMessage n c rid msg p
                   | Some sub =>
                       if decide (rid ∈ sub) then sendMessage n c rid msg p
                       else Some p
                   end
             end) (Some pending) l = Some (pending ++ new) ∧
    ∀ pm, pm ∈ new <->
          ∃ rid nds, (rid, nds) ∈ l ∧ addressed c rid ∧
                     pm ∈ deliveries n c msg nds.
Proof.
  intros Hs. revert pending. induction l as [|[rid nds] l IH]; intros pending Hl.
  - exists []. cbn. rewrite app_nil_r. split; [done|]. intros pm. split.
    + by intros ?%elem_of_nil.
    + intros (? & ? & ?%elem_of_nil & _). done.
  - cbn [foldl].
    assert (∀ rid0 nds0, (rid0, nds0) ∈ l -> replicas n !! rid0 = Some nds0) as Hl'
      by (intros ? ? ?; apply Hl; by right).
    assert (replicas n !! rid = Some nds) as Hr by (apply Hl; by left).
    assert (∀ new0 mine,
              (∀ pm, pm ∈ mine <-> addressed c rid ∧ pm ∈ deliveries n c msg nds) ->
              (∀ pm, pm ∈ new0 <-> ∃ rid0 nds0, (rid0, nds0) ∈ l ∧ addressed c rid0 ∧
                                     pm ∈ deliveries n c msg nds0) ->
              ∀ pm, pm ∈ mine ++ new0 <->
                    ∃ rid0 nds0, (rid0, nds0) ∈ (rid, nds) :: l ∧ addressed c rid0 ∧
                                 pm ∈ deliveries n c msg nds0) as Hjoin.
    { intros new0 mine Hmine Hnew0 pm. rewrite elem_of_app, Hmine, Hnew0. split.
      - intros [[Ha Hpm]|(rid0 & nds0 & Hin & Ha & Hpm)].
        + exists rid, nds. split; [by left|done].
        + exists rid0, nds0. split; [by right|done].
      - intros (rid0 & nds0 & [[= -> ->]|Hin]%elem_of_cons & Ha & Hpm); [by left|].
        right. by exists rid0, nds0. }
    destruct (decide (rid = ReplicaID (id (cfg_node c)))) as [Hown|Hother].
    + destruct (IH pending Hl') as (new0 & Hrun & Hnew0). exists new0.
      split; [done|]. apply (Hjoin new0 []); [|done].
      intros pm. split; [by intros ?%elem_of_nil|]. by intros [[? _] _].
    + destruct (subConfig c) as [sub|] eqn:Hsub.
      * destruct (decide (rid ∈ sub)) as [Hin|Hout].
        -- rewrite (sendMessage_deliveries n c sender rid nds) by done.
           destruct (IH (pending ++ deliveries n c msg nds) Hl') as (new0 & Hrun & Hnew0).
           exists (deliveries n c msg nds ++ new0). rewrite app_assoc.
           split; [done|]. apply Hjoin; [|done]. intros pm. split; [|by intros [_ ?]].
           intros Hpm. split; [|done]. split; [done|].
           intros sub0 Hs0. rewrite Hsub in Hs0. by injection Hs0 as <-.
        -- destruct (IH pending Hl') as (new0 & Hrun & Hnew0). exists new0.
           split; [done|]. apply (Hjoin new0 []); [|done].
           intros pm. split; [by intros ?%elem_of_nil|].
           intros [[_ Hall] _]. exfalso. by apply Hout, Hall.
      * rewrite (sendMessage_deliveries n c sender rid nds) by done.
        destruct (IH (pending ++ deliveries n c msg nds) Hl') as (new0 & Hrun & Hnew0).
        exists (deliveries n c msg nds ++ new0). rewrite app_assoc.
        split; [done|]. apply Hjoin; [|done]. intros pm. split; [|by intros [_ ?]].
        intros Hpm. split; [|done]. split; [done|].
        intros sub0 Hs0. by rewrite Hsub in Hs0.
Qed.

(** What a broadcast queues, replica by replica in the order the replicas are
    visited, and within a replica node by node. *)
Definition queued (n : Network) (c : configuration) (msg : MsgType)
    : list pendingMessage :=
  mjoin
    ((fun '(rid, nds) =>
        if decide (rid = ReplicaID (id (cfg_node c))) then []
        else
          match subConfig c with
          | Some sub =>
              if decide (rid ∈ sub) then
                (fun nd => mkPendingMessage msg (NetworkID (id nd))) <$>
                  filter (fun nd => cfg_shouldDrop n c (id nd) msg = Some false) nds
              else []
          | None =>
              (fun nd => mkPendingMessage msg (NetworkID (id nd))) <$>
                filter (fun nd => cfg_shouldDrop n c (id nd) msg = Some false) nds
          end) <$> map_to_list (replicas n)).

Lemma deliveries_filter n c msg nds :
  deliveries n c msg nds
  = (fun nd => mkPendingMessage msg (NetworkID (id nd))) <$>
      filter (fun nd => cfg_shouldDrop n c (id nd) msg = Some false) nds.
Proof.
  unfold deliveries. induction nds as [|nd nds IH]; [done|]. cbn [omap list_omap].
  destruct (cfg_shouldDrop n c (id nd) msg) as [[|]|] eqn:Hd.
  - rewrite filter_cons_False by (rewrite Hd; done). done.
  - rewrite filter_cons_True by done. rewrite fmap_cons. by rewrite IH.
  - rewrite filter_cons_False by (rewrite Hd; done). done.
Qed.

Lemma broadcast_fold_eq n c sender msg (l : list (N * list node)) pending :
  nodes n !! NetworkID (id (cfg_node c)) = Some sender ->
  (∀ rid nds, (rid, nds) ∈ l -> replicas n !! rid = Some nds) ->
  foldl (fun acc '(rid, _) =>
           match acc with
           | None => None
           | Some p =>
               if decide (rid = ReplicaID (id (cfg_node c))) then Some p
               else
                 match subConfig c with
                 | None => sendMessage n c rid msg p
                 | Some sub =>
                     if decide (rid ∈ sub) then sendMessage n c rid msg p
                     else Some p
                 end
           end) (Some pending) l
  = Some (pending ++
          mjoin ((fun '(rid, nds) =>
                    if decide (rid = ReplicaID (id (cfg_node c))) then []
                    else
                      match subConfig c with
                      | Some sub =>
                          if decide (rid ∈ sub) then
                            (fun nd => mkPendingMessage msg (NetworkID (id nd))) <$>
                              filter (fun nd => cfg_shouldDrop n c (id nd) msg
                                                = Some false) nds
                          else []
                      | None =>
                          (fun nd => mkPendingMessage msg (NetworkID (id nd))) <$>
                            filter (fun nd => cfg_shouldDrop n c (id nd) msg
                                              = Some false) nds
                      end) <$> l)).
Proof.
  intros Hs. revert pending. induction l as [|[rid nds] l IH]; intros pending Hl.
  - cbn. by rewrite app_nil_r.
  - cbn [foldl fmap list_fmap mjoin list_join].
    assert (∀ rid0 nds0, (rid0, nds0) ∈ l -> replicas n !! rid0 = Some nds0) as Hl'
      by (intros ? ? ?; apply Hl; by right).
    assert (replicas n !! rid = Some nds) as Hr by (apply Hl; by left).
    destruct (decide (rid = ReplicaID (id (cfg_node c)))) as [Hown|Hother].
    + by rewrite IH.
    + destruct (subConfig c) as [sub|].
      * destruct (decide (rid ∈ sub)).
        -- rewrite (sendMessage_deliveries n c sender rid nds) by done.
           rewrite IH by done. by rewrite deliveries_filter, app_assoc.
        -- by rewrite IH.
      * rewrite (sendMessage_deliveries n c sender rid nds) by done.
        rewrite IH by done. by rewrite deliveries_filter, app_assoc.
Qed.

(** X16. A broadcast from a node of the network appends to what was pending
    the list [queued]: replica by replica in the order the replicas are
    visited, and within a replica in the order of its nodes, one message for
    each node of another replica id (inside the sub-configuration, when there
    is one) that [shouldDrop] lets through, and nothing else.  Nothing goes to
    the sender's own replica id, so neither to itself nor to its twin. *)
Theorem broadcast_reaches_exactly n c sender msg pending :
  nodes n !! NetworkID (id (cfg_node c)) = Some sender ->
  ∃ new,
    broadcastMessage n c msg pending = Some (pending ++ new) ∧
    new = queued n c msg ∧
    ∀ pm, pm ∈ new <->
          ∃ rid nds nd,
            replicas n !! rid = Some nds ∧ nd ∈ nds ∧
            rid ≠ ReplicaID (id (cfg_node c)) ∧
            (∀ sub, subConfig c = Some sub -> rid ∈ sub) ∧
            cfg_shouldDrop n c (id nd) msg = Some false ∧
            pm = mkPendingMessage msg (NetworkID (id nd)).
Proof.
  intros Hs.
  assert (∀ rid nds, (rid, nds) ∈ map_to_list (replicas n) ->
                     replicas n !! rid = Some nds) as Hl
    by (intros rid nds Hin; by apply elem_of_map_to_list).
  destruct (broadcast_fold n c sender msg (map_to_list (replicas n)) pending Hs Hl)
    as (new & Hrun & Hnew).
  pose proof (broadcast_fold_eq n c sender msg (map_to_list (replicas n)) pending Hs Hl)
    as Heq.
  exists new. split; [done|]. split.
  { rewrite Hrun in Heq. injection Heq as Heq. by apply app_inv_head in Heq. }
  intros pm. rewrite Hnew. split.
  - intros (rid & nds & Hin%elem_of_map_to_list & [Hne Hsub] & Hpm).
    apply list_elem_of_omap in Hpm as (nd & Hnd & Hd).
    destruct (cfg_shouldDrop n c (id nd) msg) as [[|]|] eqn:Hdrop; try done.
    injection Hd as <-. by exists rid, nds, nd.
  - intros (rid & nds & nd & Hr & Hnd & Hne & Hsub & Hdrop & ->).
    exists rid, nds. split; [by apply elem_of_map_to_list|]. split; [done|].
    apply list_elem_of_omap. exists nd. split; [done|]. by rewrite Hdrop.
Qed.

(** X19. A sub-configuration confines a broadcast: what a broadcast on
    [SubConfig(ids)] queues goes only to nodes of replicas listed in [ids]
    (and never to the sender's own replica id); with no id listed nothing is
    queued. *)
Theorem subconfig_confines_broadcast n c ids sender msg pending :
  nodes n !! NetworkID (id (cfg_node c)) = Some sender ->
  ∃ new,
    broadcastMessage n (SubConfig c ids) msg pending = Some (pending ++ new) ∧
    (∀ pm, pm ∈ new ->
           ∃ rid nds nd, replicas n !! rid = Some nds ∧ nd ∈ nds ∧ rid ∈ ids ∧
                         rid ≠ ReplicaID (id (cfg_node c)) ∧
                         receiver pm = NetworkID (id nd)) ∧
    (ids = [] -> new = []).
Proof.
  intros Hs.
  destruct (broadcast_fold n (SubConfig c ids) sender msg
              (map_to_list (replicas n)) pending Hs) as (new & Hrun & Hnew).
  { intros rid nds Hin. by apply elem_of_map_to_list. }
  exists new. split; [done|].
  assert (∀ pm, pm ∈ new ->
                ∃ rid nds nd, replicas n !! rid = Some nds ∧ nd ∈ nds ∧ rid ∈ ids ∧
                              rid ≠ ReplicaID (id (cfg_node c)) ∧
                              receiver pm = NetworkID (id nd)) as Hin.
  { intros pm (rid & nds & Hin%elem_of_map_to_list & [Hne Hsub] & Hpm)%Hnew.
    apply list_elem_of_omap in Hpm as (nd & Hnd & Hd).
    destruct (cfg_shouldDrop n (SubConfig c ids) (id nd) msg) as [[|]|]; try done.
    injection Hd as <-. exists rid, nds, nd.
    split; [done|]. split; [done|]. split; [|done].
    specialize (Hsub _ eq_refl). by apply elem_of_list_to_set in Hsub. }
  split; [done|]. intros ->. destruct new as [|pm new]; [done|].
  destruct (Hin pm) as (rid & _ & _ & _ & _ & Hrid & _); [by left|].
  by apply elem_of_nil in Hrid.
Qed.

(** X20. A send to a replica id that the network does not know panics; a send
    from a node of the network to a known replica id appends, in the order of
    that replica's nodes, one message for every node [shouldDrop] lets
    through, so both twins are served. *)
Theorem sendMessage_serves_every_node n c sender rid msg pending :
  nodes n !! NetworkID (id (cfg_node c)) = Some sender ->
  (replicas n !! rid = None -> sendMessage n c rid msg pending = None) ∧
  (∀ nds, replicas n !! rid = Some nds ->
     sendMessage n c rid msg pending
     = Some (pending ++
             ((fun nd => mkPendingMessage msg (NetworkID (id nd))) <$>
                filter (fun nd => cfg_shouldDrop n c (id nd) msg = Some false) nds))).
Proof.
  intros Hs. split.
  - intros Hnone. unfold sendMessage. by rewrite Hnone.
  - intros nds Hr. rewrite (sendMessage_deliveries n c sender rid nds) by done.
    do 2 f_equal. unfold deliveries. clear Hr.
    induction nds as [|nd nds IH]; [done|]. cbn [omap list_omap].
    destruct (cfg_shouldDrop n c (id nd) msg) as [[|]|] eqn:Hd.
    + rewrite filter_cons_False by (rewrite Hd; done). done.
    + rewrite filter_cons_True by done. rewrite fmap_cons. by rewrite IH.
    + rewrite filter_cons_False by (rewrite Hd; done). done.
Qed.

(** *** Building the network *)

(** The nodes registered for the replica id [rid], in the order of creation. *)
Definition nodes_of (ids : list NodeID) (view : Z) (rid : N) : list node :=
  (fun nid => mkNode nid view [] 0) <$> filter (fun nid => ReplicaID nid = rid) ids.

Lemma addNodes_replicas n ids view rid :
  replicas (addNodes n ids view) !! rid =
  match replicas n !! rid, nodes_of ids view rid with
  | None, [] => None
  | old, new => Some (default [] old ++ new)
  end.
Proof.
  revert n. induction ids as [|nid ids IH]; intros n.
  - cbn. destruct (replicas n !! rid); [|done]. by rewrite app_nil_r.
  - cbn [addNodes foldl]. fold (addNodes (GetNodeBuilder n nid view) ids view).
    rewrite IH. unfold GetNodeBuilder, nodes_of. cbn [replicas].
    destruct (decide (ReplicaID nid = rid)) as [<-|Hne].
    + rewrite lookup_insert_eq. rewrite filter_cons_True by done.
      rewrite fmap_cons.
      destruct (replicas n !! ReplicaID nid) as [old|]; cbn [default];
        unfold Datatypes.id; by rewrite <- app_assoc.
    + rewrite lookup_insert_ne by done. by rewrite filter_cons_False by done.
Qed.

Lemma id_nodes_of ids view rid :
  id <$> nodes_of ids view rid = filter (fun nid => ReplicaID nid = rid) ids.
Proof.
  unfold nodes_of. rewrite <- list_fmap_compose. apply list_fmap_id.
Qed.

(** X17. Building a network groups the nodes by replica id: after
    [GetNodeBuilder] has run for the node ids [ids] on a fresh network, a
    replica id maps to the nodes created with it, in creation order, and is
    absent when no node uses it; the configuration's [Len] is the number of
    distinct replica ids, so a twin does not enlarge the configuration. *)
Theorem addNodes_groups_by_replica views drops ids view :
  let n := addNodes (NewPartitionedNetwork views drops) ids view in
  (∀ rid, (fun l : list node => id <$> l) <$> replicas n !! rid =
          if decide (filter (fun nid => ReplicaID nid = rid) ids = []) then None
          else Some (filter (fun nid => ReplicaID nid = rid) ids)) ∧
  Len n = Z.of_nat (size (list_to_set (ReplicaID <$> ids) : gset N)).
Proof.
  intros n.
  assert (∀ rid, replicas n !! rid =
                 if decide (nodes_of ids view rid = []) then None
                 else Some (nodes_of ids view rid)) as Hrep.
  { intros rid. unfold n. rewrite addNodes_replicas. cbn. rewrite lookup_empty.
    by destruct (nodes_of ids view rid). }
  split.
  - intros rid. rewrite Hrep. rewrite <- (id_nodes_of ids view rid).
    destruct (nodes_of ids view rid); by repeat case_decide.
  - unfold Len. f_equal. rewrite <- size_dom. f_equal.
    apply set_eq. intros rid. rewrite elem_of_dom, Hrep, elem_of_list_to_set.
    rewrite list_elem_of_fmap. unfold nodes_of. split.
    + case_decide as Hnil; [by intros [? ?]|]. intros _.
      destruct (filter _ ids) as [|nid l] eqn:Hf; [done|].
      assert (nid ∈ filter (fun nid => ReplicaID nid = rid) ids) as Hin
        by (rewrite Hf; by left).
      apply list_elem_of_filter in Hin as [<- Hin]. by exists nid.
    + intros (nid & -> & Hin). rewrite decide_False; [done|].
      assert (nid ∈ filter (fun x => ReplicaID x = ReplicaID nid) ids) as Hf
        by (by apply list_elem_of_filter).
      destruct (filter _ ids); [by apply elem_of_nil in Hf|done].
Qed.

(** *** Commands *)

Lemma FormatUint_inj x y : 0 <= x -> 0 <= y -> FormatUint x = FormatUint y -> x = y.
Proof.
  unfold FormatUint. intros Hx Hy Heq.
  apply (f_equal String.string_of_list_byte) in Heq.
  rewrite !String.string_of_list_byte_of_string in Heq.
  apply (inj pretty) in Heq. lia.
Qed.

Lemma next_n_spec k c0 :
  0 <= c0 -> c0 + Z.of_nat k <= 2 ^ 64 ->
  (∀ cmd, cmd ∈ (next_n k c0).1 ->
          ∃ x, c0 <= x < c0 + Z.of_nat k ∧ cmd = FormatUint x) ∧
  NoDup (next_n k c0).1.
Proof.
  revert c0. induction k as [|k IH]; intros c0 H0 Hk; cbn [next_n].
  - cbn. split; [by intros ? ?%elem_of_nil|constructor].
  - unfold next. destruct (decide (k = O)) as [->|Hpos].
    + cbn. split; [|apply NoDup_singleton].
      intros cmd ->%list_elem_of_singleton. exists c0. split; [lia|done].
    + rewrite (Z.mod_small (c0 + 1)) by lia.
      destruct (IH (c0 + 1)) as [Hin Hnd]; [lia|lia|].
      destruct (next_n k (c0 + 1)) as [cmds c2]. cbn [fst] in *. split.
      * intros cmd [->|Hc]%elem_of_cons; [exists c0; split; [lia|done]|].
        destruct (Hin cmd Hc) as (x & Hx & ->). exists x. split; [lia|done].
      * apply NoDup_cons. split; [|done]. intros Hc.
        destruct (Hin _ Hc) as (x & Hx & Heq). apply FormatUint_inj in Heq; lia.
Qed.

(** X18. The command generator does not repeat itself: as long as the counter
    does not wrap around, the commands of consecutive calls of [next] are
    pairwise distinct. *)
Theorem commands_are_distinct k nextCmd :
  0 <= nextCmd ->
  nextCmd + Z.of_nat k <= 2 ^ 64 ->
  NoDup (next_n k nextCmd).1.
Proof. intros H0 Hk. by apply next_n_spec. Qed.

Lemma checkCommits_skips_twins_witness :
  checkCommits 3
    (mkNetwork (nodes Toy.finished) (<[1%N := []]> (replicas Toy.finished))
       (views Toy.finished) (dropTypes Toy.finished))
  = checkCommits 3 Toy.finished.
Proof.
  apply (checkCommits_skips_twins 3 Toy.finished 1
           [Toy.finished_node 1 1 [Toy.block1 []]; Toy.finished_node 1 5 [Toy.block2 []]]
           []).
  - reflexivity.
  - cbn. lia.
  - cbn. lia.
Defined.

Lemma checkCommits_counts_longest_witness :
  (∀ rid r, replicas Toy.finished !! rid = Some [r] ->
            (length (executedBlocks r) <= 2)%nat) ∧
  ((0 < 2)%nat ->
   ∃ rid r, replicas Toy.finished !! rid = Some [r] ∧
            length (executedBlocks r) = 2%nat).
Proof.
  apply (checkCommits_counts_longest 3 Toy.finished 2).
  vm_compute. reflexivity.
Defined.

Lemma timeout_fires_every_timeout_ticks_witness :
  advance_n (Z.to_nat (timeout Toy.manager)) (viewChange Toy.manager) (Toy.node_at 1 1)
  = (viewChange Toy.manager,
     (if decide (effectiveView (Toy.node_at 1 1) <= Synchronizer_View (Toy.node_at 1 1))
      then mkNode (id (Toy.node_at 1 1)) (Synchronizer_View (Toy.node_at 1 1))
             (executedBlocks (Toy.node_at 1 1))
             ((Synchronizer_View (Toy.node_at 1 1) + 1) mod 2 ^ 64)
      else Toy.node_at 1 1),
     [Synchronizer_View (Toy.node_at 1 1)]).
Proof.
  refine (proj2 (timeout_fires_every_timeout_ticks Toy.manager (Toy.node_at 1 1) _)).
  by vm_compute.
Defined.

Lemma unarmed_manager_never_fires_witness :
  advance_n 100 Toy.manager (Toy.node_at 1 1)
  = (mkTimeoutManager (countdown Toy.manager - Z.of_nat 100) (timeout Toy.manager),
     Toy.node_at 1 1, []).
Proof.
  apply (unarmed_manager_never_fires 100 Toy.manager (Toy.node_at 1 1)).
  - by vm_compute.
  - by vm_compute.
Defined.

Lemma timed_out_past_plan_drops_witness :
  shouldDrop
    (mkNetwork (<[1%N := (advance (mkTimeoutManager 1 5) (Toy.node_at 1 1)).1.2]> ∅) ∅
       [mkView 1 [{[1%N; 2%N]}]] [])
    1 2 TimeoutMsg
  = Some true.
Proof.
  apply (timed_out_past_plan_drops (mkTimeoutManager 1 5) (Toy.node_at 1 1)
           (advance (mkTimeoutManager 1 5) (Toy.node_at 1 1)).1.1
           (advance (mkTimeoutManager 1 5) (Toy.node_at 1 1)).1.2 1).
  - reflexivity.
  - by vm_compute.
  - by vm_compute.
  - by vm_compute.
  - reflexivity.
  - by vm_compute.
Defined.

Lemma broadcast_reaches_exactly_witness :
  ∃ new,
    broadcastMessage (Toy.network_at 1) (Toy.speaker 1) ProposeMsg []
    = Some ([] ++ new) ∧
    new = queued (Toy.network_at 1) (Toy.speaker 1) ProposeMsg ∧
    ∀ pm, pm ∈ new <->
          ∃ rid nds nd,
            replicas (Toy.network_at 1) !! rid = Some nds ∧ nd ∈ nds ∧
            rid ≠ ReplicaID (id (cfg_node (Toy.speaker 1))) ∧
            (∀ sub, subConfig (Toy.speaker 1) = Some sub -> rid ∈ sub) ∧
            cfg_shouldDrop (Toy.network_at 1) (Toy.speaker 1) (id nd) ProposeMsg
            = Some false ∧
            pm = mkPendingMessage ProposeMsg (NetworkID (id nd)).
Proof.
  apply (broadcast_reaches_exactly (Toy.network_at 1) (Toy.speaker 1)
           (Toy.node_at 1 1)).
  reflexivity.
Defined.

Lemma queued_in_view_one :
  queued (Toy.network_at 1) (Toy.speaker 1) ProposeMsg
  = [mkPendingMessage ProposeMsg 2].
Proof. vm_compute. reflexivity. Qed.

Lemma commands_are_distinct_witness : NoDup (next_n 12 0).1.
Proof.
  apply (commands_are_distinct 12 0).
  - lia.
  - by vm_compute.
Defined.

Lemma subconfig_confines_broadcast_witness :
  ∃ new,
    broadcastMessage (Toy.network_at 1) (SubConfig (Toy.speaker 1) [2%N]) VoteMsg []
    = Some ([] ++ new) ∧
    (∀ pm, pm ∈ new ->
           ∃ rid nds nd, replicas (Toy.network_at 1) !! rid = Some nds ∧ nd ∈ nds ∧
                         rid ∈ [2%N] ∧
                         rid ≠ ReplicaID (id (cfg_node (Toy.speaker 1))) ∧
                         receiver pm = NetworkID (id nd)) ∧
    ([2%N] = [] -> new = []).
Proof.
  apply (subconfig_confines_broadcast (Toy.network_at 1) (Toy.speaker 1) [2%N]
           (Toy.node_at 1 1)).
  reflexivity.
Defined.

Lemma sendMessage_serves_every_node_witness :
  sendMessage (Toy.network_at 1) (Toy.speaker 1) 7 VoteMsg [] = None.
Proof.
  refine (proj1 (sendMessage_serves_every_node (Toy.network_at 1) (Toy.speaker 1)
                   (Toy.node_at 1 1) 7 VoteMsg [] _) _).
  - reflexivity.
  - reflexivity.
Defined.

End TwinsExtras.
